(** * Trading-strategy evaluation engine (RSI, MACD, Bollinger Bands)

    A shallow embedding of [file.cpp].  The C++ [double] type is kept
    abstract behind the interface [Double], so that every evaluator is
    written once, exactly as the source writes it, and can then be

    - run on IEEE-754 binary64 numbers (instance [Double_float], which
      computes with [vm_compute]),
    - reasoned about in every number system at once, where a property
      does not depend on the arithmetic, or depends on it only through
      the order facts of [OrderLaws], which binary64 and the real numbers
      share, and
    - reasoned about over the real numbers (instance [Double_R]) where a
      property is about exact arithmetic.

    [std::vector::operator[]] has undefined behaviour out of range: every
    read and write goes through [vget]/[vset], which return [None] there,
    and an evaluator returns [None] exactly when the C++ run would read or
    write outside a vector.  [int] and [size_t] values are modelled as
    unbounded [Z] and [nat]: the model is the program on series shorter
    than 2^31 bars, and its [int] expressions [period + 1] and
    [current_index - period + 1] are those of the source for periods of
    at least 1 (the evaluators use 9, 12, 14, 20 and 26). *)

From Stdlib Require Import ZArith List Bool Lia Reals Lra Floats.
Import ListNotations.

Set Implicit Arguments.

(** ** The numeric interface *)

Class Double (F : Type) : Type := {
  fadd : F -> F -> F;
  fsub : F -> F -> F;
  fmul : F -> F -> F;
  fdiv : F -> F -> F;
  fsqrt : F -> F;
  flt : F -> F -> bool;          (* x < y *)
  feq : F -> F -> bool;          (* x == y *)
  of_int : Z -> F                (* int -> double conversion, literals *)
}.

Declare Scope dbl_scope.
Delimit Scope dbl_scope with dbl.
Infix "+" := fadd : dbl_scope.
Infix "-" := fsub : dbl_scope.
Infix "*" := fmul : dbl_scope.
Infix "/" := fdiv : dbl_scope.
Infix "<?" := flt : dbl_scope.
Infix "=?" := feq : dbl_scope.
Notation "x >? y" := (flt y x) (only parsing) : dbl_scope.

(** ** Fallible computations: the option monad *)

Definition bind {A B : Type} (c : option A) (k : A -> option B) : option B :=
  match c with
  | Some a => k a
  | None => None
  end.

Notation "x <- c ;; k" := (bind c (fun x => k))
  (at level 61, c at next level, right associativity).
Notation "' p <- c ;; k" := (bind c (fun x => let 'p := x in k))
  (at level 61, p pattern, c at next level, right associativity).

(** ** Vectors *)

(** [v[i]] for an [int] index. *)
Definition vget {A : Type} (v : list A) (i : Z) : option A :=
  if (i <? 0)%Z then None else nth_error v (Z.to_nat i).

(** [v[i] = x] for a [size_t] index. *)
Fixpoint vset {A : Type} (v : list A) (i : nat) (x : A) : option (list A) :=
  match v, i with
  | [], _ => None
  | _ :: t, O => Some (x :: t)
  | h :: t, S j =>
      match vset t j x with
      | Some t' => Some (h :: t')
      | None => None
      end
  end.

(** [v.back()] *)
Definition back {A : Type} (v : list A) : option A :=
  nth_error v (length v - 1).

(** ** Loops *)

Fixpoint foldM {A S : Type} (body : A -> S -> option S) (l : list A) (s : S)
  : option S :=
  match l with
  | [] => Some s
  | a :: l' =>
      match body a s with
      | Some s' => foldM body l' s'
      | None => None
      end
  end.

(** [for (size_t i = lo; i < hi; ++i) body] *)
Definition for_below {S : Type} (lo hi : nat) (body : nat -> S -> option S)
  (s : S) : option S :=
  foldM body (seq lo (hi - lo)) s.

(** The indices [lo, lo+1, ..., hi] of [for (int i = lo; i <= hi; ++i)]. *)
Definition zrange (lo hi : Z) : list Z :=
  map (fun k => (lo + Z.of_nat k)%Z) (seq 0 (Z.to_nat (hi - lo + 1))).

Definition for_upto {S : Type} (lo hi : Z) (body : Z -> S -> option S)
  (s : S) : option S :=
  foldM body (zrange lo hi) s.

Section Engine.

Context {F : Type} {DF : Double F}.
Local Open Scope dbl_scope.

(** ** Data model *)

Record Candle : Type := { close : F }.

Record TradeResult : Type := {
  success_rate : F;
  avg_return : F;
  total_trades : Z;
  signal_positions : list Z
}.

(** The local variables of an evaluator's scanning loop. *)
Record Scan : Type := {
  trades : Z;
  profitables : Z;
  total_ret : F;
  holding : bool;
  entry : F;
  signals : list Z
}.

(** [for (const auto& c : candles) closes.push_back(c.close);] *)
Definition closes_of (candles : list Candle) : list F := map close candles.

(** The declarations that precede each scanning loop. *)
Definition scan_init (closes : list F) : Scan :=
  {| trades := 0; profitables := 0; total_ret := of_int 0;
     holding := false; entry := of_int 0;
     signals := repeat 0%Z (length closes) |}.

(** The [return {...}] statement shared by the three evaluators. *)
Definition summary (st : Scan) : TradeResult :=
  {| success_rate :=
       if (trades st =? 0)%Z then of_int 0
       else of_int (profitables st) / of_int (trades st) * of_int 100;
     avg_return :=
       if (trades st =? 0)%Z then of_int 0
       else (total_ret st / of_int (trades st)) * of_int 100;
     total_trades := trades st;
     signal_positions := signals st |}.

(** ** Indicator library *)

Definition sma (data : list F) (start period : Z) : option F :=
  if (start <? period - 1)%Z then Some (of_int 0)
  else
    sum <- for_upto (start - period + 1) start
             (fun i sum => x <- vget data i ;; Some (sum + x)) (of_int 0) ;;
    Some (sum / of_int period).

Definition ema (data : list F) (start : nat) (period : Z) (prev_ema : F)
  : option F :=
  let k := of_int 2 / of_int (period + 1) in
  x <- vget data (Z.of_nat start) ;;
  Some (x * k + prev_ema * (of_int 1 - k)).

(** Lines 39-44 of [calculate_rsi]: the pair (gain, loss) over the
    trailing window. *)
Definition rsi_gain_loss (closes : list F) (current_index period : Z)
  : option (F * F) :=
  for_upto (current_index - period + 1) current_index
    (fun i '(gain, loss) =>
       c <- vget closes i ;;
       p <- vget closes (i - 1) ;;
       let change := c - p in
       if change >? of_int 0 then Some (gain + change, loss)
       else Some (gain, loss - change))
    (of_int 0, of_int 0).

(** Line 45: [rs = loss == 0 ? 0 : gain / loss]. *)
Definition rsi_ratio (gain loss : F) : F :=
  if loss =? of_int 0 then of_int 0 else gain / loss.

Definition calculate_rsi (closes : list F) (current_index period : Z)
  : option F :=
  if (current_index <? period)%Z then Some (of_int 50)
  else
    '(gain, loss) <- rsi_gain_loss closes current_index period ;;
    let rs := rsi_ratio gain loss in
    Some (of_int 100 - of_int 100 / (of_int 1 + rs)).

(** ** RSI strategy *)

Definition rsi_body (closes : list F) (profit_threshold : F)
  (i : nat) (st : Scan) : option Scan :=
  rsi <- calculate_rsi closes (Z.of_nat i) 14 ;;
  if negb (holding st) && (rsi <? of_int 30) then
    c <- vget closes (Z.of_nat i) ;;
    sg <- vset (signals st) i 1%Z ;;
    Some {| trades := trades st; profitables := profitables st;
            total_ret := total_ret st;
            holding := true; entry := c; signals := sg |}
  else if holding st && (rsi >? of_int 70) then
    c <- vget closes (Z.of_nat i) ;;
    let ret := (c - entry st) / entry st in
    sg <- vset (signals st) i (-1)%Z ;;
    Some {| trades := trades st + 1;
            profitables := if ret >? profit_threshold
                           then profitables st + 1 else profitables st;
            total_ret := total_ret st + ret;
            holding := false; entry := entry st; signals := sg |}
  else Some st.

Definition rsi_scan (closes : list F) (profit_threshold : F) : option Scan :=
  for_below 15 (length closes) (rsi_body closes profit_threshold)
    (scan_init closes).

Definition run_rsi_strategy (candles : list Candle) (profit_threshold : F)
  : option TradeResult :=
  st <- rsi_scan (closes_of candles) profit_threshold ;;
  Some (summary st).

(** ** MACD strategy *)

(** Lines 84-89: the MACD line. *)
Definition macd_line (closes : list F) : option (list F) :=
  e12 <- vget closes 11 ;;
  e26 <- vget closes 25 ;;
  '(_, _, macd) <-
    for_below 26 (length closes)
      (fun i '(ema12, ema26, macd) =>
         ema12' <- ema closes i 12 ema12 ;;
         ema26' <- ema closes i 26 ema26 ;;
         Some (ema12', ema26', macd ++ [ema12' - ema26']))
      (e12, e26, []) ;;
  Some macd.

(** Lines 91-93: the signal line. *)
Definition signal_line (macd : list F) : option (list F) :=
  m0 <- vget macd 0 ;;
  for_below 1 (length macd)
    (fun i signal =>
       prev <- back signal ;;
       e <- ema macd i 9 prev ;;
       Some (signal ++ [e]))
    [m0].

(** The body of the loop of lines 101-115.  The operands of [&&] are read
    left to right and only as far as needed, as in C++. *)
Definition macd_body (closes macd signal : list F) (profit_threshold : F)
  (i : nat) (st : Scan) : option Scan :=
  let idx := (i + 26)%nat in
  if negb (holding st) then
    m1 <- vget macd (Z.of_nat (i - 1)) ;;
    s1 <- vget signal (Z.of_nat (i - 1)) ;;
    if m1 <? s1 then
      m <- vget macd (Z.of_nat i) ;;
      s <- vget signal (Z.of_nat i) ;;
      if m >? s then
        c <- vget closes (Z.of_nat idx) ;;
        sg <- vset (signals st) idx 1%Z ;;
        Some {| trades := trades st; profitables := profitables st;
                total_ret := total_ret st;
                holding := true; entry := c; signals := sg |}
      else Some st
    else Some st
  else
    m1 <- vget macd (Z.of_nat (i - 1)) ;;
    s1 <- vget signal (Z.of_nat (i - 1)) ;;
    if m1 >? s1 then
      m <- vget macd (Z.of_nat i) ;;
      s <- vget signal (Z.of_nat i) ;;
      if m <? s then
        c <- vget closes (Z.of_nat idx) ;;
        let ret := (c - entry st) / entry st in
        sg <- vset (signals st) idx (-1)%Z ;;
        Some {| trades := trades st + 1;
                profitables := if ret >? profit_threshold
                               then profitables st + 1 else profitables st;
                total_ret := total_ret st + ret;
                holding := false; entry := entry st; signals := sg |}
      else Some st
    else Some st.

Definition macd_scan (closes : list F) (profit_threshold : F) : option Scan :=
  macd <- macd_line closes ;;
  signal <- signal_line macd ;;
  for_below 1 (length signal) (macd_body closes macd signal profit_threshold)
    (scan_init closes).

Definition run_macd_strategy (candles : list Candle) (profit_threshold : F)
  : option TradeResult :=
  st <- macd_scan (closes_of candles) profit_threshold ;;
  Some (summary st).

(** ** Bollinger Bands strategy *)

(** Lines 133-140: the bands at bar [i], as (ma, stddev, upper, lower).
    [pow(x, 2)] is the square [x * x]. *)
Definition bollinger_bands (closes : list F) (i : nat) (period : Z)
  : option (F * F * F * F) :=
  ma <- sma closes (Z.of_nat i) period ;;
  acc <- for_upto (Z.of_nat i - period + 1) (Z.of_nat i)
           (fun j stddev =>
              c <- vget closes j ;;
              Some (stddev + (c - ma) * (c - ma)))
           (of_int 0) ;;
  let stddev := fsqrt (acc / of_int period) in
  let upper := ma + of_int 2 * stddev in
  let lower := ma - of_int 2 * stddev in
  Some (ma, stddev, upper, lower).

Definition bollinger_body (closes : list F) (profit_threshold : F)
  (period : Z) (i : nat) (st : Scan) : option Scan :=
  '(_, _, upper, lower) <- bollinger_bands closes i period ;;
  ci <- vget closes (Z.of_nat i) ;;
  if negb (holding st) && (ci <? lower) then
    sg <- vset (signals st) i 1%Z ;;
    Some {| trades := trades st; profitables := profitables st;
            total_ret := total_ret st;
            holding := true; entry := ci; signals := sg |}
  else if holding st && (ci >? upper) then
    let ret := (ci - entry st) / entry st in
    sg <- vset (signals st) i (-1)%Z ;;
    Some {| trades := trades st + 1;
            profitables := if ret >? profit_threshold
                           then profitables st + 1 else profitables st;
            total_ret := total_ret st + ret;
            holding := false; entry := entry st; signals := sg |}
  else Some st.

Definition bollinger_scan (closes : list F) (profit_threshold : F)
  : option Scan :=
  let period := 20%Z in
  for_below (Z.to_nat period) (length closes)
    (bollinger_body closes profit_threshold period) (scan_init closes).

Definition run_bollinger_strategy (candles : list Candle)
  (profit_threshold : F) : option TradeResult :=
  st <- bollinger_scan (closes_of candles) profit_threshold ;;
  Some (summary st).

End Engine.

Arguments Candle F : clear implicits.
Arguments TradeResult F : clear implicits.
Arguments Scan F : clear implicits.

(** ** The two number systems *)

(** IEEE-754 binary64, the [double] of the source. *)
Definition float_of_int (z : Z) : float :=
  match z with
  | Zneg p => PrimFloat.opp (PrimFloat.of_uint63 (Uint63.of_Z (Zpos p)))
  | _ => PrimFloat.of_uint63 (Uint63.of_Z z)
  end.

#[export] Instance Double_float : Double float := {
  fadd := PrimFloat.add;
  fsub := PrimFloat.sub;
  fmul := PrimFloat.mul;
  fdiv := PrimFloat.div;
  fsqrt := PrimFloat.sqrt;
  flt := PrimFloat.ltb;
  feq := PrimFloat.eqb;
  of_int := float_of_int
}.

(** The real numbers: exact arithmetic, no rounding, no NaN. *)
Definition Rltb (x y : R) : bool := if Rlt_dec x y then true else false.
Definition Reqb (x y : R) : bool := if Req_dec_T x y then true else false.

#[export] Instance Double_R : Double R := {
  fadd := Rplus;
  fsub := Rminus;
  fmul := Rmult;
  fdiv := Rdiv;
  fsqrt := R_sqrt.sqrt;
  flt := Rltb;
  feq := Reqb;
  of_int := IZR
}.

(** ** The driver's series (line 161 of the source) *)

Definition main_closes : list Z :=
  [100; 101; 102; 98; 96; 94; 92; 93; 95; 97; 99; 101; 100; 102; 103; 105;
   104; 106; 107; 109; 110; 111; 113; 112; 114; 115; 117; 116]%Z.

Definition candles_of_ints {F : Type} {DF : Double F} (l : list Z)
  : list (Candle F) :=
  map (fun z => {| close := of_int z |}) l.


(** ** Test series *)

(** A 1% profitability threshold, as in the driver. *)
Definition one_percent {F : Type} {DF : Double F} : F :=
  fdiv (of_int 1) (of_int 100).

(** Sixteen falling bars, a jump, a crash: the RSI evaluator buys at bar
    15, sells at bar 16 and buys again at bar 17. *)
Definition rsi_series : list Z :=
  [100; 99; 98; 97; 96; 95; 94; 93; 92; 91; 90; 89; 88; 87; 86; 85;
   116; 1]%Z.

(** Twenty quiet bars, a drop below the lower band, a jump above the
    upper band, a second drop. *)
Definition bollinger_series : list Z :=
  [100; 101; 100; 101; 100; 101; 100; 101; 100; 101; 100; 101; 100; 101;
   100; 101; 100; 101; 100; 101; 90; 120; 80]%Z.

(** Twenty-seven flat bars followed by swings that make the MACD line
    cross its signal line three times. *)
Definition macd_series : list Z :=
  (repeat 100 27 ++ [90; 80; 120; 160; 100; 40; 30; 100; 150])%Z.


(** ** Specification vocabulary *)

(** The two-state position machine (Flat = [false], Long = [true]) run
    over a signal timeline: [1] is legal only when Flat, [-1] only when
    Long, [0] always; any other entry is illegal.  The result is the state
    after the last bar, or [None] for an illegal timeline. *)
Fixpoint position_after (long : bool) (sigs : list Z) : option bool :=
  match sigs with
  | [] => Some long
  | s :: rest =>
      match s with
      | 0%Z => position_after long rest
      | 1%Z => if long then None else position_after true rest
      | (-1)%Z => if long then position_after false rest else None
      | _ => None
      end
  end.

(** One bar carries one of Sell, None, Buy. *)
Definition is_signal (s : Z) : bool :=
  ((s =? -1) || (s =? 0) || (s =? 1))%Z.

Section Trades.

Context {F : Type} {DF : Double F}.
Local Open Scope dbl_scope.

(** The Trades of a timeline (spec, section 3): a Buy at bar [i] opens a
    position at price [closes[i]]; the next Sell, at bar [j], completes a
    Trade with return [(closes[j] - entry) / entry].  A Buy that no Sell
    follows completes nothing. *)
Record Ledger : Type := {
  open : bool;
  open_price : F;
  returns : list F
}.

Definition ledger_init : Ledger :=
  {| open := false; open_price := of_int 0; returns := [] |}.

Definition ledger_step (closes : list F) (i : nat) (s : Z) (lg : Ledger)
  : option Ledger :=
  match s with
  | 0%Z => Some lg
  | 1%Z =>
      if open lg then None
      else
        c <- vget closes (Z.of_nat i) ;;
        Some {| open := true; open_price := c; returns := returns lg |}
  | (-1)%Z =>
      if open lg then
        c <- vget closes (Z.of_nat i) ;;
        Some {| open := false; open_price := open_price lg;
                returns := returns lg ++ [(c - open_price lg) / open_price lg] |}
      else None
  | _ => None
  end.

Fixpoint replay_from (closes : list F) (i : nat) (lg : Ledger)
  (sigs : list Z) : option Ledger :=
  match sigs with
  | [] => Some lg
  | s :: rest =>
      lg' <- ledger_step closes i s lg ;;
      replay_from closes (S i) lg' rest
  end.

Definition replay (closes : list F) (sigs : list Z) : option Ledger :=
  replay_from closes 0 ledger_init sigs.

(** The realized returns of the completed Trades of a timeline, in the
    order the trades close. *)
Definition trade_returns (closes : list F) (sigs : list Z)
  : option (list F) :=
  option_map returns (replay closes sigs).

(** Result aggregation (spec, section 4.3). *)
Definition count_above (theta : F) (rets : list F) : Z :=
  Z.of_nat (length (filter (fun r => r >? theta) rets)).

Definition sum_returns (rets : list F) : F :=
  fold_left fadd rets (of_int 0).

(** The summary with no trade and no signal. *)
Definition zero_summary (n : nat) : TradeResult F :=
  {| success_rate := of_int 0; avg_return := of_int 0;
     total_trades := 0; signal_positions := repeat 0%Z n |}.

(** What one bar may do to the scanning state. *)
Definition bought (c : F) (sg : list Z) (st : Scan F) : Scan F :=
  {| trades := trades st; profitables := profitables st;
     total_ret := total_ret st;
     holding := true; entry := c; signals := sg |}.

Definition sold (theta c : F) (sg : list Z) (st : Scan F) : Scan F :=
  let ret := (c - entry st) / entry st in
  {| trades := trades st + 1;
     profitables := if ret >? theta
                    then profitables st + 1 else profitables st;
     total_ret := total_ret st + ret;
     holding := false; entry := entry st; signals := sg |}.

Inductive Move (closes : list F) (theta : F) (idx : nat) (st : Scan F)
  : Scan F -> Prop :=
| MoveNone : Move closes theta idx st st
| MoveBuy : forall c sg,
    holding st = false ->
    vget closes (Z.of_nat idx) = Some c ->
    vset (signals st) idx 1%Z = Some sg ->
    Move closes theta idx st (bought c sg st)
| MoveSell : forall c sg,
    holding st = true ->
    vget closes (Z.of_nat idx) = Some c ->
    vset (signals st) idx (-1)%Z = Some sg ->
    Move closes theta idx st (sold theta c sg st).

(** The loop invariant of the three scans, before bar [k]: the bars from
    [k] on are still unmarked, the bars below [lo] were never marked, and
    the counters are those of the Trades of the timeline so far. *)
Definition Inv (closes : list F) (theta : F) (lo k : nat) (st : Scan F)
  : Prop :=
  exists pre lg,
    signals st = pre ++ repeat 0%Z (length closes - k) /\
    length pre = k /\
    (forall j, (j < lo)%nat -> nth j pre 0%Z = 0%Z) /\
    replay closes pre = Some lg /\
    open lg = holding st /\
    open_price lg = entry st /\
    trades st = Z.of_nat (length (returns lg)) /\
    profitables st = count_above theta (returns lg) /\
    total_ret st = sum_returns (returns lg).

(** A finished scan: [Inv] at the end of the series. *)
Definition Final (closes : list F) (theta : F) (lo : nat) (st : Scan F)
  : Prop :=
  Inv closes theta lo (length closes) st.

(** The summary that result aggregation computes from a list of Trade
    returns, with the operations in the order of the source. *)
Definition aggregate (theta : F) (rets : list F) (sigs : list Z)
  : TradeResult F :=
  let n := Z.of_nat (length rets) in
  {| success_rate :=
       if (n =? 0)%Z then of_int 0
       else of_int (count_above theta rets) / of_int n * of_int 100;
     avg_return :=
       if (n =? 0)%Z then of_int 0
       else (sum_returns rets / of_int n) * of_int 100;
     total_trades := n;
     signal_positions := sigs |}.

(** The three evaluators under one name. *)
Inductive Strategy : Type := RSI | MACD | Bollinger.

Definition scan (s : Strategy) (closes : list F) (theta : F)
  : option (Scan F) :=
  match s with
  | RSI => rsi_scan closes theta
  | MACD => macd_scan closes theta
  | Bollinger => bollinger_scan closes theta
  end.

Definition run (s : Strategy) (candles : list (Candle F)) (theta : F)
  : option (TradeResult F) :=
  match s with
  | RSI => run_rsi_strategy candles theta
  | MACD => run_macd_strategy candles theta
  | Bollinger => run_bollinger_strategy candles theta
  end.

(** The first bar each evaluator looks at. *)
Definition warmup (s : Strategy) : nat :=
  match s with
  | RSI => 15
  | MACD => 27
  | Bollinger => 20
  end.

(** The body of each scanning loop and the bar it works on; the MACD loop
    counts from 1 and works on bar [i + 26]. *)
Definition step (s : Strategy) (closes macd signal : list F) (theta : F)
  (i : nat) (st : Scan F) : option (Scan F) :=
  match s with
  | RSI => rsi_body closes theta i st
  | MACD => macd_body closes macd signal theta i st
  | Bollinger => bollinger_body closes theta 20 i st
  end.

Definition bar (s : Strategy) (i : nat) : nat :=
  match s with
  | MACD => (i + 26)%nat
  | _ => i
  end.

(** The series is long enough for the evaluator to run inside its
    vectors: only MACD asks for anything. *)
Definition long_enough (s : Strategy) (n : nat) : Prop :=
  match s with
  | MACD => (27 <= n)%nat
  | _ => True
  end.

(** A step that respects the position: while Long it neither re-enters
    nor touches the entry price, while Flat it closes no trade. *)
Definition respects_position (st st' : Scan F) : Prop :=
  (holding st = true ->
     entry st' = entry st /\ (st' = st \/ holding st' = false)) /\
  (holding st = false ->
     trades st' = trades st /\ profitables st' = profitables st /\
     total_ret st' = total_ret st /\ (st' = st \/ holding st' = true)).

(** A step carries at most one action, on its own bar: nothing, a Buy
    that leaves the position open, or a Sell that closes it. *)
Definition one_action (idx : nat) (st st' : Scan F) : Prop :=
  st' = st \/
  (holding st = false /\ holding st' = true /\ trades st' = trades st /\
   vset (signals st) idx 1%Z = Some (signals st')) \/
  (holding st = true /\ holding st' = false /\
   trades st' = (trades st + 1)%Z /\
   vset (signals st) idx (-1)%Z = Some (signals st')).

End Trades.

(** Every Sell closes exactly one Buy: the timeline is legal for the
    position machine, and before each Sell lies a Buy with only unmarked
    bars in between and every earlier position already closed. *)
Definition single_position (sigs : list Z) : Prop :=
  position_after false sigs <> None /\
  forall pre post, sigs = pre ++ (-1)%Z :: post ->
    exists a b, pre = a ++ 1%Z :: b /\ Forall (eq 0%Z) b /\
                position_after false a = Some false.



(** The trailing window [closes[i-period+1 .. i]]. *)
Definition window {A : Type} (l : list A) (i period : nat) : list A :=
  firstn period (skipn (i + 1 - period) l).

(** ** The table of entry and exit rules (spec, section 4.2) *)

Fixpoint mapM {A B : Type} (f : A -> option B) (l : list A)
  : option (list B) :=
  match l with
  | [] => Some []
  | a :: l' =>
      match f a with
      | Some b =>
          match mapM f l' with
          | Some bs => Some (b :: bs)
          | None => None
          end
      | None => None
      end
  end.

(** The position machine driven by the per-bar outcomes
    (entry rule fires, exit rule fires): the marks it leaves. *)
Fixpoint drive (long : bool) (rules : list (bool * bool)) : list Z :=
  match rules with
  | [] => []
  | (enter, leave) :: rest =>
      if long then
        if leave then (-1)%Z :: drive false rest else 0%Z :: drive true rest
      else
        if enter then 1%Z :: drive true rest else 0%Z :: drive false rest
  end.

Section Rules.

Context {F : Type} {DF : Double F}.
Local Open Scope dbl_scope.

(** RSI(i) < 30 / RSI(i) > 70. *)
Definition rsi_rule (closes : list F) (i : nat) : option (bool * bool) :=
  rsi <- calculate_rsi closes (Z.of_nat i) 14 ;;
  Some (rsi <? of_int 30, rsi >? of_int 70).

(** close[i] < lower_band(i) / close[i] > upper_band(i). *)
Definition bollinger_rule (closes : list F) (i : nat)
  : option (bool * bool) :=
  '(_, _, upper, lower) <- bollinger_bands closes i 20 ;;
  c <- vget closes (Z.of_nat i) ;;
  Some (c <? lower, c >? upper).

(** Bullish / bearish crossover between the values [i - 1] and [i] of the
    MACD and signal lines. *)
Definition macd_rule (macd signal : list F) (i : nat)
  : option (bool * bool) :=
  m1 <- vget macd (Z.of_nat (i - 1)) ;;
  s1 <- vget signal (Z.of_nat (i - 1)) ;;
  m <- vget macd (Z.of_nat i) ;;
  s <- vget signal (Z.of_nat i) ;;
  Some ((m1 <? s1) && (m >? s), (m1 >? s1) && (m <? s)).

(** The outcomes of the rules on the bars an evaluator scans, in order. *)
Definition rules_of (s : Strategy) (closes : list F)
  : option (list (bool * bool)) :=
  match s with
  | RSI => mapM (rsi_rule closes) (seq 15 (length closes - 15))
  | MACD =>
      macd <- macd_line closes ;;
      signal <- signal_line macd ;;
      mapM (macd_rule macd signal) (seq 1 (length signal - 1))
  | Bollinger => mapM (bollinger_rule closes) (seq 20 (length closes - 20))
  end.

(** The outcome of the two rules of a strategy at a bar of the series. *)
Definition rule_at (s : Strategy) (closes : list F) (i : nat)
  : option (bool * bool) :=
  match s with
  | RSI => rsi_rule closes i
  | MACD =>
      macd <- macd_line closes ;;
      signal <- signal_line macd ;;
      macd_rule macd signal (i - 26)
  | Bollinger => bollinger_rule closes i
  end.

(** What a loop body does on bar [idx] once the two rules are known. *)
Definition act (closes : list F) (theta : F) (idx : nat)
  (enter leave : bool) (st : Scan F) : option (Scan F) :=
  if holding st then
    if leave then
      c <- vget closes (Z.of_nat idx) ;;
      sg <- vset (signals st) idx (-1)%Z ;;
      Some (sold theta c sg st)
    else Some st
  else
    if enter then
      c <- vget closes (Z.of_nat idx) ;;
      sg <- vset (signals st) idx 1%Z ;;
      Some (bought c sg st)
    else Some st.

End Rules.

(** ** What the proofs about magnitudes ask of the arithmetic *)

Section Order.

Context {F : Type} {DF : Double F}.
Local Open Scope dbl_scope.

(** [x] is not below zero: [x < 0] is false.  On binary64 this holds of
    the positive numbers, of both zeros, of +infinity and of NaN. *)
Definition nn (x : F) : Prop := (x <? of_int 0) = false.

(** Order facts about the operations.  Each one holds of the real numbers
    (instance [OrderLaws_R]) and is a fact of IEEE-754 arithmetic with
    rounding to nearest, NaN and infinities included: rounding is
    monotone, keeps the sign, and a comparison with NaN is false. *)
Class OrderLaws : Prop := {
  of_int_nn : forall z : Z, (0 <= z)%Z -> nn (of_int z);
  hundred_pos : (of_int 0 <? of_int 100) = true;
  add_pos_nn : forall g ch, nn g -> (of_int 0 <? ch) = true -> nn (g + ch);
  sub_nonpos_nn :
    forall l ch, nn l -> (of_int 0 <? ch) = false -> nn (l - ch);
  div_nn :
    forall g l, nn g -> nn l -> (l =? of_int 0) = false -> nn (g / l);
  mul_nn : forall x y, nn x -> nn y -> nn (x * y);
  sqrt_nn : forall x, nn (fsqrt x);
  add_nn_ge : forall x y, nn y -> (x + y <? x) = false;
  sub_nn_le : forall x y, nn y -> (x <? x - y) = false;
  div_ge_one :
    forall a t, (of_int 0 <? a) = true -> (t <? of_int 1) = false ->
                nn (a / t) /\ (a <? a / t) = false;
  sub_le_nn : forall a q, nn q -> (a <? q) = false -> nn (a - q);
  lt_sub_nn : forall x m y, (x <? m - y) = true -> nn y -> (x <? m) = true;
  add_nn_lt : forall x m y, (m + y <? x) = true -> nn y -> (m <? x) = true
}.

(** The same facts as a test on a finite list of values. *)
Definition nnb (x : F) : bool := negb (x <? of_int 0).

Definition order_laws_on (grid : list F) : bool :=
  let all1 p := forallb p grid in
  let all2 p := forallb (fun x => forallb (p x) grid) grid in
  let all3 p := forallb (fun x => all2 (p x)) grid in
  (of_int 0 <? of_int 100)
  && all2 (fun g ch => implb (nnb g && (of_int 0 <? ch)) (nnb (g + ch)))
  && all2 (fun l ch => implb (nnb l && negb (of_int 0 <? ch)) (nnb (l - ch)))
  && all2 (fun g l =>
             implb (nnb g && nnb l && negb (l =? of_int 0)) (nnb (g / l)))
  && all2 (fun x y => implb (nnb x && nnb y) (nnb (x * y)))
  && all1 (fun x => nnb (fsqrt x))
  && all2 (fun x y => implb (nnb y) (negb (x + y <? x)))
  && all2 (fun x y => implb (nnb y) (negb (x <? x - y)))
  && all2 (fun a t =>
             implb ((of_int 0 <? a) && negb (t <? of_int 1))
                   (nnb (a / t) && negb (a <? a / t)))
  && all2 (fun a q => implb (nnb q && negb (a <? q)) (nnb (a - q)))
  && all3 (fun x m y => implb ((x <? m - y) && nnb y) (x <? m))
  && all3 (fun x m y => implb ((m + y <? x) && nnb y) (m <? x)).

(** The mean and the population standard deviation of a window, with the
    operations of the code in the order of the source: the sums run from
    the oldest close to the newest, starting from 0. *)
Definition window_sum (w : list F) : F := fold_left fadd w (of_int 0).

Definition window_mean (w : list F) : F :=
  window_sum w / of_int (Z.of_nat (length w)).

Definition window_stddev (w : list F) : F :=
  let ma := window_mean w in
  fsqrt (fold_left (fun acc c => acc + (c - ma) * (c - ma)) w (of_int 0)
         / of_int (Z.of_nat (length w))).

End Order.

Arguments OrderLaws F {DF}.

(** Corner values of binary64: NaN, the infinities, the largest and
    smallest magnitudes, both zeros, neighbours of 1 and of 100. *)
Definition binary64_grid : list float :=
  [nan; neg_infinity; -0x1.fffffffffffffp1023; -0x1p1023; -0x1p53; -100;
   -2; -0x1.0000000000001p0; -1; -0x1.fffffffffffffp-1; -0x1p-1022;
   -0x1p-1074; -0; 0; 0x1p-1074; 0x1p-1022; 0x1.999999999999ap-570;
   0x1.fffffffffffffp-1; 1; 0x1.0000000000001p0; 2; 3; 30; 50; 70;
   0x1.8ffffffffffffp6; 100; 0x1.9000000000001p6; 0x1p53; 0x1p1023;
   0x1.fffffffffffffp1023; infinity]%float.

(** A close that is a price: positive and finite. *)
Definition is_price (c : float) : bool :=
  PrimFloat.ltb 0 c && PrimFloat.ltb c infinity.



(** Forty-three prices on which the Bollinger evaluator buys at 2^57 (bar
    20) and sells at 2 (bar 42): the return (2 - 2^57) / 2^57 rounds to
    -1. *)
Definition rounding_series : list float :=
  (repeat 0x1p60 20 ++ [0x1p57] ++ repeat 1 21 ++ [2])%float.

Unset Implicit Arguments.

(** * Vectors and loops *)

Lemma bind_Some {A B : Type} (c : option A) (k : A -> option B) (b : B) :
  bind c k = Some b <-> exists a, c = Some a /\ k a = Some b.
Proof.
  destruct c as [a|]; simpl; split.
  - intros H; exists a; auto.
  - intros (a' & E & H); inversion E; subst; auto.
  - discriminate.
  - intros (a' & E & _); discriminate.
Qed.

Lemma vget_of_nat {A : Type} (v : list A) (i : nat) :
  vget v (Z.of_nat i) = nth_error v i.
Proof.
  unfold vget. destruct (Z.ltb_spec (Z.of_nat i) 0); [lia|].
  now rewrite Nat2Z.id.
Qed.

Lemma vget_in_range {A : Type} (v : list A) (i : Z) :
  (0 <= i < Z.of_nat (length v))%Z -> exists x, vget v i = Some x.
Proof.
  intros H. unfold vget. destruct (Z.ltb_spec i 0); [lia|].
  destruct (nth_error v (Z.to_nat i)) eqn:E; [eauto|].
  apply nth_error_None in E. lia.
Qed.

Lemma vget_out_of_range {A : Type} (v : list A) (i : Z) :
  (Z.of_nat (length v) <= i)%Z -> vget v i = None.
Proof.
  intros H. unfold vget. destruct (Z.ltb_spec i 0); [reflexivity|].
  apply nth_error_None. lia.
Qed.

Lemma vset_app {A : Type} (pre post : list A) (x y : A) :
  vset (pre ++ x :: post) (length pre) y = Some (pre ++ y :: post).
Proof.
  induction pre as [|h t IH]; simpl; [reflexivity|]. now rewrite IH.
Qed.

Lemma vset_in_range {A : Type} (v : list A) (i : nat) (x : A) :
  (i < length v)%nat -> exists v', vset v i x = Some v'.
Proof.
  revert i; induction v as [|h t IH]; intros i H; simpl in *; [lia|].
  destruct i as [|j]; [eauto|].
  destruct (IH j) as (t' & E); [lia|]. rewrite E. eauto.
Qed.

Lemma foldM_inv {A S : Type} (P : S -> Prop) (body : A -> S -> option S)
  (l : list A) :
  (forall a s, In a l -> P s -> exists s', body a s = Some s' /\ P s') ->
  forall s, P s -> exists s', foldM body l s = Some s' /\ P s'.
Proof.
  induction l as [|a l IH]; intros Hb s Hs; simpl.
  - eauto.
  - destruct (Hb a s) as (s1 & E & H1); [now left | assumption |].
    rewrite E. apply IH; [|assumption].
    intros a' s' Hin; apply Hb; now right.
Qed.

Lemma foldM_seq_inv {S : Type} (P : nat -> S -> Prop)
  (body : nat -> S -> option S) (len : nat) :
  forall lo s,
    (forall i s, (lo <= i < lo + len)%nat -> P i s ->
                 exists s', body i s = Some s' /\ P (Datatypes.S i) s') ->
    P lo s ->
    exists s', foldM body (seq lo len) s = Some s' /\ P (lo + len)%nat s'.
Proof.
  induction len as [|len IH]; intros lo s Hb Hs; simpl.
  - rewrite Nat.add_0_r. eauto.
  - destruct (Hb lo s) as (s1 & E & H1); [lia | assumption |].
    rewrite E. replace (lo + Datatypes.S len)%nat with (Datatypes.S lo + len)%nat by lia.
    apply IH; [|assumption].
    intros i s' Hi; apply Hb; lia.
Qed.

(** A [for] loop whose body keeps an index-dependent invariant runs to
    completion and establishes the invariant at the upper bound. *)
Lemma for_below_inv {S : Type} (P : nat -> S -> Prop)
  (body : nat -> S -> option S) (lo hi : nat) (s : S) :
  (lo <= hi)%nat ->
  (forall i s, (lo <= i < hi)%nat -> P i s ->
               exists s', body i s = Some s' /\ P (Datatypes.S i) s') ->
  P lo s ->
  exists s', for_below lo hi body s = Some s' /\ P hi s'.
Proof.
  intros Hle Hb Hs. unfold for_below.
  destruct (foldM_seq_inv P body (hi - lo) lo s) as (s' & E & H); auto.
  - intros i s' Hi; apply Hb; lia.
  - exists s'. split; [assumption|].
    replace hi with (lo + (hi - lo))%nat by lia. exact H.
Qed.

Lemma for_below_empty {S : Type} (body : nat -> S -> option S)
  (lo hi : nat) (s : S) :
  (hi <= lo)%nat -> for_below lo hi body s = Some s.
Proof.
  intros H. unfold for_below. replace (hi - lo)%nat with 0%nat by lia.
  reflexivity.
Qed.

Lemma in_zrange (lo hi a : Z) : In a (zrange lo hi) <-> (lo <= a <= hi)%Z.
Proof.
  unfold zrange. rewrite in_map_iff. split.
  - intros (k & E & Hin). apply in_seq in Hin. lia.
  - intros H. exists (Z.to_nat (a - lo)). split; [lia|].
    apply in_seq. lia.
Qed.

Lemma for_upto_inv {S : Type} (P : S -> Prop) (body : Z -> S -> option S)
  (lo hi : Z) (s : S) :
  (forall i s, (lo <= i <= hi)%Z -> P s ->
               exists s', body i s = Some s' /\ P s') ->
  P s -> exists s', for_upto lo hi body s = Some s' /\ P s'.
Proof.
  intros Hb Hs. unfold for_upto. apply foldM_inv; [|assumption].
  intros a s' Hin; apply Hb. now apply in_zrange.
Qed.


(** * The scanning invariant *)

Section Invariant.

Context {F : Type} {DF : Double F}.
Local Open Scope dbl_scope.

Variable closes : list F.
Variable theta : F.

Lemma replay_from_app (a b : list Z) :
  forall i lg,
    replay_from closes i lg (a ++ b) =
    bind (replay_from closes i lg a)
         (fun lg' => replay_from closes (i + length a) lg' b).
Proof.
  induction a as [|s a IH]; intros i lg; simpl.
  - now rewrite Nat.add_0_r.
  - destruct (ledger_step closes i s lg) as [lg1|]; simpl; [|reflexivity].
    rewrite IH. now replace (S i + length a)%nat with (i + S (length a))%nat by lia.
Qed.

Lemma replay_from_zeros (k : nat) :
  forall i lg, replay_from closes i lg (repeat 0%Z k) = Some lg.
Proof.
  induction k as [|k IH]; intros i lg; simpl; [reflexivity|]. apply IH.
Qed.

Lemma replay_snoc (pre : list Z) (s : Z) (lg : Ledger) :
  replay closes pre = Some lg ->
  replay closes (pre ++ [s]) = ledger_step closes (length pre) s lg.
Proof.
  intros H. unfold replay in *. rewrite replay_from_app, H. simpl.
  destruct (ledger_step closes (length pre) s lg); reflexivity.
Qed.

Lemma count_above_snoc (rets : list F) (r : F) :
  count_above theta (rets ++ [r]) =
  if r >? theta then (count_above theta rets + 1)%Z
  else count_above theta rets.
Proof.
  unfold count_above. rewrite filter_app, length_app. simpl.
  destruct (theta <? r); simpl; lia.
Qed.

Lemma sum_returns_snoc (rets : list F) (r : F) :
  sum_returns (rets ++ [r]) = sum_returns rets + r.
Proof. unfold sum_returns. now rewrite fold_left_app. Qed.

Lemma Inv_init (lo k : nat) :
  (k <= length closes)%nat -> Inv closes theta lo k (scan_init closes).
Proof.
  intros Hk. exists (repeat 0%Z k), ledger_init. simpl.
  repeat split.
  - rewrite <- repeat_app. f_equal. lia.
  - apply repeat_length.
  - intros j _. destruct (Nat.lt_ge_cases j k) as [H|H].
    + now rewrite nth_repeat_lt.
    + apply nth_overflow. now rewrite repeat_length.
  - apply replay_from_zeros.
Qed.

Lemma Inv_length (lo k : nat) (st : Scan F) :
  (k <= length closes)%nat -> Inv closes theta lo k st ->
  length (signals st) = length closes.
Proof.
  intros Hk (pre & lg & Hs & Hl & _). rewrite Hs, length_app, repeat_length. lia.
Qed.

Lemma Inv_quiet (lo k : nat) (st : Scan F) :
  Inv closes theta lo k st ->
  forall j, (j < lo)%nat -> nth j (signals st) 0%Z = 0%Z.
Proof.
  intros (pre & lg & Hs & Hl & Hq & _) j Hj. rewrite Hs.
  destruct (Nat.lt_ge_cases j (length pre)) as [H|H].
  - rewrite app_nth1 by assumption. now apply Hq.
  - rewrite app_nth2 by assumption.
    destruct (Nat.lt_ge_cases (j - length pre) (length closes - k)) as [H'|H'].
    + now rewrite nth_repeat_lt.
    + apply nth_overflow. now rewrite repeat_length.
Qed.

(** One bar's move takes the invariant from bar [k] to bar [k + 1]. *)
Lemma Move_Inv (lo k : nat) (st st' : Scan F) :
  (lo <= k < length closes)%nat ->
  Inv closes theta lo k st ->
  Move closes theta k st st' ->
  Inv closes theta lo (S k) st'.
Proof.
  intros Hk (pre & lg & Hs & Hl & Hq & Hr & Ho & Hp & Ht & Hpr & Htr) Hm.
  subst k.
  assert (Hz : repeat 0%Z (length closes - length pre) =
               0%Z :: repeat 0%Z (length closes - S (length pre))).
  { replace (length closes - length pre)%nat
      with (S (length closes - S (length pre))) by lia.
    reflexivity. }
  rewrite Hz in Hs.
  assert (Hq' : forall s j, (j < lo)%nat -> nth j (pre ++ [s]) 0%Z = 0%Z).
  { intros s j Hj. rewrite app_nth1 by lia. now apply Hq. }
  assert (Hl' : forall s : Z, length (pre ++ [s]) = S (length pre)).
  { intros s. rewrite length_app. simpl. lia. }
  destruct Hm as [|c sg Hh Hc Hv|c sg Hh Hc Hv].
  - exists (pre ++ [0%Z]), lg. rewrite <- app_assoc. simpl.
    repeat split; auto.
    rewrite (replay_snoc pre 0%Z lg Hr). reflexivity.
  - rewrite Hs, vset_app in Hv. inversion Hv; subst sg; clear Hv.
    exists (pre ++ [1%Z]),
      {| open := true; open_price := c; returns := returns lg |}.
    rewrite <- app_assoc. simpl. repeat split; auto.
    rewrite (replay_snoc pre 1%Z lg Hr). simpl.
    rewrite Ho, Hh, Hc. reflexivity.
  - rewrite Hs, vset_app in Hv. inversion Hv; subst sg; clear Hv.
    exists (pre ++ [(-1)%Z]),
      {| open := false; open_price := open_price lg;
         returns := returns lg ++ [(c - open_price lg) / open_price lg] |}.
    rewrite <- app_assoc. simpl. repeat split; auto.
    + rewrite (replay_snoc pre (-1)%Z lg Hr). simpl.
      rewrite Ho, Hh, Hc. reflexivity.
    + rewrite length_app, Ht. simpl. lia.
    + rewrite count_above_snoc, Hp, Hpr. reflexivity.
    + rewrite sum_returns_snoc, Hp, Htr. reflexivity.
Qed.

End Invariant.

(** * The three scans never leave their vectors *)

Section Scans.

Context {F : Type} {DF : Double F}.
Local Open Scope dbl_scope.

Variable closes : list F.
Variable theta : F.

Lemma sma_defined (start period : Z) :
  (period - 1 <= start < Z.of_nat (length closes))%Z ->
  exists m, sma closes start period = Some m.
Proof.
  intros H. unfold sma. destruct (start <? period - 1)%Z; [eauto|].
  destruct (for_upto_inv (fun _ => True)
              (fun i sum => x <- vget closes i ;; Some (sum + x))
              (start - period + 1) start (of_int 0)) as (s & E & _); auto.
  - intros i s Hi _. destruct (vget_in_range closes i) as (x & Ex); [lia|].
    rewrite Ex. simpl. eauto.
  - rewrite E. simpl. eauto.
Qed.

Lemma rsi_gain_loss_defined (idx period : Z) :
  (period <= idx < Z.of_nat (length closes))%Z ->
  exists gl, rsi_gain_loss closes idx period = Some gl.
Proof.
  intros H. unfold rsi_gain_loss.
  edestruct (for_upto_inv (fun _ : F * F => True)) as (s & E & _);
    [| exact I | exists s; exact E].
  intros i [g l] Hi _.
  destruct (vget_in_range closes i) as (c & Ec); [lia|].
  destruct (vget_in_range closes (i - 1)) as (p & Ep); [lia|].
  rewrite Ec, Ep. simpl. destruct (of_int 0 <? c - p); eauto.
Qed.

Lemma calculate_rsi_defined (idx period : Z) :
  (idx < Z.of_nat (length closes))%Z ->
  exists v, calculate_rsi closes idx period = Some v.
Proof.
  intros H. unfold calculate_rsi.
  destruct (Z.ltb_spec idx period); [eauto|].
  destruct (rsi_gain_loss_defined idx period) as ([g l] & E); [lia|].
  rewrite E. simpl. eauto.
Qed.

Lemma bollinger_bands_defined (i : nat) (period : Z) :
  (period - 1 <= Z.of_nat i)%Z -> (i < length closes)%nat ->
  exists b, bollinger_bands closes i period = Some b.
Proof.
  intros Hp Hi. unfold bollinger_bands.
  destruct (sma_defined (Z.of_nat i) period) as (ma & Em); [lia|].
  rewrite Em. simpl.
  edestruct (for_upto_inv (fun _ : F => True)) as (s & E & _);
    [| exact I | rewrite E; simpl; eauto].
  intros j s Hj _. destruct (vget_in_range closes j) as (c & Ec); [lia|].
  rewrite Ec. simpl. eauto.
Qed.

(** Each loop body, run on a bar inside the series, performs one move of
    the position machine. *)
Lemma rsi_body_move (i : nat) (st : Scan F) :
  (i < length closes)%nat -> length (signals st) = length closes ->
  exists st', rsi_body closes theta i st = Some st' /\
              Move closes theta i st st'.
Proof.
  intros Hi Hl. unfold rsi_body.
  destruct (calculate_rsi_defined (Z.of_nat i) 14) as (rsi & Er); [lia|].
  destruct (vget_in_range closes (Z.of_nat i)) as (c & Ec); [lia|].
  rewrite Er. simpl.
  destruct (holding st) eqn:Hh; simpl.
  - destruct (of_int 70 <? rsi); [|eexists; split; [reflexivity|constructor]].
    destruct (vset_in_range (signals st) i (-1)%Z) as (sg & Es); [lia|].
    rewrite Ec, Es. simpl. eexists; split; [reflexivity|].
    apply MoveSell; assumption.
  - destruct (rsi <? of_int 30); [|eexists; split; [reflexivity|constructor]].
    destruct (vset_in_range (signals st) i 1%Z) as (sg & Es); [lia|].
    rewrite Ec, Es. simpl. eexists; split; [reflexivity|].
    apply MoveBuy; assumption.
Qed.

Lemma bollinger_body_move (i : nat) (st : Scan F) :
  (19 <= i < length closes)%nat -> length (signals st) = length closes ->
  exists st', bollinger_body closes theta 20 i st = Some st' /\
              Move closes theta i st st'.
Proof.
  intros Hi Hl. unfold bollinger_body.
  destruct (bollinger_bands_defined i 20) as ([[[ma sd] up] low] & Eb);
    [lia | lia |].
  destruct (vget_in_range closes (Z.of_nat i)) as (c & Ec); [lia|].
  rewrite Eb. simpl. rewrite Ec. simpl.
  destruct (holding st) eqn:Hh; simpl.
  - destruct (up <? c); [|eexists; split; [reflexivity|constructor]].
    destruct (vset_in_range (signals st) i (-1)%Z) as (sg & Es); [lia|].
    rewrite Es. simpl. eexists; split; [reflexivity|].
    apply MoveSell; assumption.
  - destruct (c <? low); [|eexists; split; [reflexivity|constructor]].
    destruct (vset_in_range (signals st) i 1%Z) as (sg & Es); [lia|].
    rewrite Es. simpl. eexists; split; [reflexivity|].
    apply MoveBuy; assumption.
Qed.

Lemma macd_body_move (macd signal : list F) (i : nat) (st : Scan F) :
  (1 <= i)%nat -> (i < length macd)%nat -> (i < length signal)%nat ->
  (i + 26 < length closes)%nat -> length (signals st) = length closes ->
  exists st', macd_body closes macd signal theta i st = Some st' /\
              Move closes theta (i + 26) st st'.
Proof.
  intros H1 Hm Hs Hi Hl. unfold macd_body.
  destruct (vget_in_range macd (Z.of_nat (i - 1))) as (m1 & Em1); [lia|].
  destruct (vget_in_range signal (Z.of_nat (i - 1))) as (s1 & Es1); [lia|].
  destruct (vget_in_range macd (Z.of_nat i)) as (m & Em); [lia|].
  destruct (vget_in_range signal (Z.of_nat i)) as (s & Es); [lia|].
  destruct (vget_in_range closes (Z.of_nat (i + 26))) as (c & Ec); [lia|].
  rewrite Em1, Es1. simpl.
  destruct (holding st) eqn:Hh; simpl.
  - destruct (s1 <? m1); [|eexists; split; [reflexivity|constructor]].
    rewrite Em, Es. simpl.
    destruct (m <? s); [|eexists; split; [reflexivity|constructor]].
    destruct (vset_in_range (signals st) (i + 26) (-1)%Z) as (sg & Eg); [lia|].
    rewrite Ec, Eg. simpl. eexists; split; [reflexivity|].
    apply MoveSell; assumption.
  - destruct (m1 <? s1); [|eexists; split; [reflexivity|constructor]].
    rewrite Em, Es. simpl.
    destruct (s <? m); [|eexists; split; [reflexivity|constructor]].
    destruct (vset_in_range (signals st) (i + 26) 1%Z) as (sg & Eg); [lia|].
    rewrite Ec, Eg. simpl. eexists; split; [reflexivity|].
    apply MoveBuy; assumption.
Qed.

End Scans.

Section ScanResults.

Context {F : Type} {DF : Double F}.
Local Open Scope dbl_scope.

Variable closes : list F.
Variable theta : F.

Lemma ema_defined (data : list F) (i : nat) (period : Z) (prev : F) :
  (i < length data)%nat -> exists e, ema data i period prev = Some e.
Proof.
  intros H. unfold ema.
  destruct (vget_in_range data (Z.of_nat i)) as (x & Ex); [lia|].
  rewrite Ex. simpl. eauto.
Qed.

Lemma rsi_scan_final :
  exists st, rsi_scan closes theta = Some st /\ Final closes theta 15 st.
Proof.
  unfold rsi_scan, Final.
  destruct (Nat.le_gt_cases (length closes) 15) as [Hn|Hn].
  - rewrite for_below_empty by assumption.
    eexists; split; [reflexivity|]. now apply Inv_init.
  - apply (for_below_inv (Inv closes theta 15)); [lia | | apply Inv_init; lia].
    intros i st Hi HI.
    destruct (rsi_body_move closes theta i st) as (st' & E & Hm);
      [lia | apply (Inv_length closes theta 15 i); [lia|assumption] |].
    exists st'. split; [assumption|].
    apply (Move_Inv closes theta 15 i st); auto.
Qed.

Lemma bollinger_scan_final :
  exists st, bollinger_scan closes theta = Some st /\
             Final closes theta 20 st.
Proof.
  unfold bollinger_scan, Final. change (Z.to_nat 20) with 20%nat.
  destruct (Nat.le_gt_cases (length closes) 20) as [Hn|Hn].
  - rewrite for_below_empty by assumption.
    eexists; split; [reflexivity|]. now apply Inv_init.
  - apply (for_below_inv (Inv closes theta 20)); [lia | | apply Inv_init; lia].
    intros i st Hi HI.
    destruct (bollinger_body_move closes theta i st) as (st' & E & Hm);
      [lia | apply (Inv_length closes theta 20 i); [lia|assumption] |].
    exists st'. split; [assumption|].
    apply (Move_Inv closes theta 20 i st); auto.
Qed.

(** The MACD line has one value per bar from bar 26 on; its first value
    comes from the two seeds. *)
Lemma macd_line_spec (c11 c25 e12 e26 : F) :
  (27 <= length closes)%nat ->
  vget closes 11 = Some c11 -> vget closes 25 = Some c25 ->
  ema closes 26 12 c11 = Some e12 -> ema closes 26 26 c25 = Some e26 ->
  exists macd, macd_line closes = Some macd /\
               length macd = (length closes - 26)%nat /\
               hd_error macd = Some (e12 - e26).
Proof.
  intros Hn E11 E25 E12 E26. unfold macd_line. rewrite E11, E25. simpl.
  destruct (for_below_inv
    (fun i (s : F * F * list F) =>
       length (snd s) = (i - 26)%nat /\
       (i = 26%nat -> s = (c11, c25, [])) /\
       ((26 < i)%nat -> hd_error (snd s) = Some (e12 - e26)))
    (fun i '(ema12, ema26, macd) =>
         ema12' <- ema closes i 12 ema12 ;;
         ema26' <- ema closes i 26 ema26 ;;
         Some (ema12', ema26', macd ++ [ema12' - ema26']))
    26 (length closes) (c11, c25, []))
    as ([[a b] macd] & E & Hlen & _ & Hhd).
  - lia.
  - intros i [[a b] macd] Hi (Hlen & H26 & Hhd). simpl in *.
    destruct (ema_defined closes i 12 a) as (a' & Ea); [lia|].
    destruct (ema_defined closes i 26 b) as (b' & Eb); [lia|].
    rewrite Ea, Eb. simpl. eexists; split; [reflexivity|]. simpl.
    split; [rewrite length_app; simpl; lia|]. split; [lia|]. intros _.
    destruct (Nat.eq_dec i 26) as [->|Hne].
    + specialize (H26 eq_refl). inversion H26; subst.
      rewrite E12 in Ea. rewrite E26 in Eb. inversion Ea; inversion Eb; subst.
      reflexivity.
    + destruct macd as [|m0 macd]; simpl in *; [lia|]. apply Hhd. lia.
  - simpl. split; [reflexivity|]. split; [reflexivity|lia].
  - rewrite E. simpl. exists macd. split; [reflexivity|].
    simpl in *. split; [assumption|]. apply Hhd. lia.
Qed.

(** The signal line has one value per MACD value and starts with the
    first MACD value. *)
Lemma signal_line_spec (macd : list F) :
  (1 <= length macd)%nat ->
  exists signal, signal_line macd = Some signal /\
                 length signal = length macd /\
                 hd_error signal = hd_error macd.
Proof.
  intros Hn. unfold signal_line.
  destruct macd as [|m0 rest]; [simpl in Hn; lia|].
  set (macd := m0 :: rest) in *.
  change (vget macd 0) with (Some m0). simpl bind.
  destruct (for_below_inv
    (fun i (s : list F) => length s = i /\ hd_error s = Some m0)
    (fun i signal =>
       prev <- back signal ;;
       e <- ema macd i 9 prev ;;
       Some (signal ++ [e]))
    1 (length macd) [m0]) as (signal & E & Hlen & Hhd).
  - lia.
  - intros i s Hi (Hlen & Hhd).
    destruct s as [|s0 s]; simpl in Hlen; [lia|].
    assert (Hb : exists prev, back (s0 :: s) = Some prev).
    { unfold back. destruct (nth_error (s0 :: s) (length (s0 :: s) - 1)) eqn:Eb;
        [eauto|]. apply nth_error_None in Eb. simpl in Eb. lia. }
    destruct Hb as (prev & Eb).
    destruct (ema_defined macd i 9 prev) as (e & Ee); [lia|].
    rewrite Eb. simpl. rewrite Ee. simpl. eexists; split; [reflexivity|].
    split; [simpl; rewrite length_app; simpl; lia | exact Hhd].
  - split; reflexivity.
  - exists signal. repeat split; auto.
Qed.

Lemma macd_scan_final :
  (27 <= length closes)%nat ->
  exists st, macd_scan closes theta = Some st /\ Final closes theta 27 st.
Proof.
  intros Hn. unfold macd_scan, Final.
  destruct (vget_in_range closes 11) as (c11 & E11); [lia|].
  destruct (vget_in_range closes 25) as (c25 & E25); [lia|].
  destruct (ema_defined closes 26 12 c11) as (e12 & E12); [lia|].
  destruct (ema_defined closes 26 26 c25) as (e26 & E26); [lia|].
  destruct (macd_line_spec c11 c25 e12 e26 Hn E11 E25 E12 E26)
    as (macd & Em & Hlm & _).
  destruct (signal_line_spec macd) as (signal & Es & Hls & _); [lia|].
  rewrite Em. simpl. rewrite Es. simpl.
  destruct (for_below_inv (fun i st => Inv closes theta 27 (i + 26) st)
              (macd_body closes macd signal theta) 1 (length signal)
              (scan_init closes)) as (st & E & HI).
  - lia.
  - intros i st Hi HI.
    destruct (macd_body_move closes theta macd signal i st) as (st' & E & Hm);
      [lia | lia | lia | lia
      | apply (Inv_length closes theta 27 (i + 26)); [lia|assumption] |].
    exists st'. split; [assumption|].
    apply (Move_Inv closes theta 27 (i + 26) st); auto. lia.
  - apply Inv_init. lia.
  - exists st. split; [assumption|].
    assert (Hend : (length signal + 26)%nat = length closes) by lia.
    rewrite <- Hend. exact HI.
Qed.

(** Below 27 bars the MACD evaluator reads outside a vector:
    [closes[11]] or [closes[25]] when fewer than 26 bars are given,
    [macd[0]] of the empty MACD line when exactly 26 are. *)
Lemma macd_scan_short :
  (length closes < 27)%nat -> macd_scan closes theta = None.
Proof.
  intros Hn. unfold macd_scan, macd_line.
  destruct (Nat.le_gt_cases (length closes) 11) as [H11|H11].
  { rewrite (vget_out_of_range closes 11) by lia. reflexivity. }
  destruct (vget_in_range closes 11) as (c11 & E11); [lia|].
  rewrite E11. simpl.
  destruct (Nat.le_gt_cases (length closes) 25) as [H25|H25].
  { rewrite (vget_out_of_range closes 25) by lia. reflexivity. }
  destruct (vget_in_range closes 25) as (c25 & E25); [lia|].
  rewrite E25. simpl.
  rewrite for_below_empty by lia. reflexivity.
Qed.

End ScanResults.

(** * What a single step can do *)

Ltac split_step H :=
  repeat match type of H with
    | bind ?c _ = _ =>
        destruct c eqn:?; simpl in H; [|discriminate H]
    | (if ?b then _ else _) = _ => destruct b eqn:?; simpl in H
    end.

Ltac close_step H :=
  injection H as <-;
  first [ apply MoveNone
        | apply MoveBuy; assumption
        | apply MoveSell; assumption ].

Section Steps.

Context {F : Type} {DF : Double F}.
Local Open Scope dbl_scope.

Variable closes : list F.
Variable theta : F.

Lemma rsi_body_sound (i : nat) (st st' : Scan F) :
  rsi_body closes theta i st = Some st' -> Move closes theta i st st'.
Proof.
  unfold rsi_body. intros H.
  destruct (calculate_rsi closes (Z.of_nat i) 14) as [rsi|]; simpl in H;
    [|discriminate H].
  destruct (holding st) eqn:Hh; simpl in H; split_step H; close_step H.
Qed.

Lemma bollinger_body_sound (i : nat) (st st' : Scan F) :
  bollinger_body closes theta 20 i st = Some st' -> Move closes theta i st st'.
Proof.
  unfold bollinger_body. intros H.
  destruct (bollinger_bands closes i 20) as [[[[ma sd] up] low]|]; simpl in H;
    [|discriminate H].
  destruct (vget closes (Z.of_nat i)) as [ci|] eqn:Ec; simpl in H;
    [|discriminate H].
  destruct (holding st) eqn:Hh; simpl in H; split_step H; close_step H.
Qed.

Lemma macd_body_sound (macd signal : list F) (i : nat) (st st' : Scan F) :
  macd_body closes macd signal theta i st = Some st' ->
  Move closes theta (i + 26) st st'.
Proof.
  unfold macd_body. intros H.
  destruct (holding st) eqn:Hh; simpl in H; split_step H; close_step H.
Qed.

Lemma step_sound (s : Strategy) (macd signal : list F) (i : nat)
  (st st' : Scan F) :
  step s closes macd signal theta i st = Some st' ->
  Move closes theta (bar s i) st st'.
Proof.
  destruct s; simpl.
  - apply rsi_body_sound.
  - apply macd_body_sound.
  - apply bollinger_body_sound.
Qed.

Lemma Move_respects_position (idx : nat) (st st' : Scan F) :
  Move closes theta idx st st' -> respects_position st st'.
Proof.
  intros [|c sg Hh Hc Hv|c sg Hh Hc Hv]; split; intros Hh'; simpl;
    try congruence; auto.
Qed.

Lemma Move_one_action (idx : nat) (st st' : Scan F) :
  Move closes theta idx st st' -> one_action idx st st'.
Proof.
  intros [|c sg Hh Hc Hv|c sg Hh Hc Hv]; unfold one_action; simpl; auto.
  - right; left. auto.
  - right; right. auto.
Qed.

End Steps.

(** * Timelines of the position machine *)

Lemma position_after_app (a b : list Z) :
  forall h, position_after h (a ++ b) =
            bind (position_after h a) (fun h' => position_after h' b).
Proof.
  induction a as [|s a IH]; intros h; simpl; [reflexivity|].
  destruct s as [|[p|p|]|[p|p|]]; try reflexivity;
    destruct h; try reflexivity; apply IH.
Qed.

Lemma position_after_zeros (b : list Z) (h : bool) :
  Forall (eq 0%Z) b -> position_after h b = Some h.
Proof.
  induction 1 as [|x b Hx Hb IH]; simpl; [reflexivity|]. now subst x.
Qed.

Lemma position_after_signals (sigs : list Z) :
  forall h h', position_after h sigs = Some h' ->
               Forall (fun s => is_signal s = true) sigs.
Proof.
  induction sigs as [|s sigs IH]; intros h h' H; [constructor|].
  simpl in H. destruct s as [|[p|p|]|[p|p|]]; try discriminate H;
    constructor; try reflexivity; destruct h; try discriminate H; eauto.
Qed.

(** A timeline that leaves the machine Long contains a Buy that opened
    the position, and only unmarked bars after it. *)
Lemma position_long_has_buy (pre : list Z) :
  position_after false pre = Some true ->
  exists a b, pre = a ++ 1%Z :: b /\ Forall (eq 0%Z) b /\
              position_after false a = Some false.
Proof.
  induction pre as [|x pre IH] using rev_ind; intros H; [discriminate H|].
  rewrite position_after_app in H.
  destruct (position_after false pre) as [h|] eqn:E; [|discriminate H].
  simpl in H.
  destruct x as [|[p|p|]|[p|p|]]; try discriminate H;
    destruct h; try discriminate H.
  - destruct (IH eq_refl) as (a & b & -> & Hb & Ha).
    exists a, (b ++ [0%Z]). rewrite <- app_assoc. simpl. repeat split; auto.
    apply Forall_app. split; [assumption|]. now constructor.
  - exists pre, []. repeat split; auto.
Qed.

Lemma legal_single_position (sigs : list Z) (h : bool) :
  position_after false sigs = Some h -> single_position sigs.
Proof.
  intros H. split; [congruence|].
  intros pre post ->. rewrite position_after_app in H.
  destruct (position_after false pre) as [[|]|] eqn:E; simpl in H;
    try discriminate H.
  now apply position_long_has_buy.
Qed.

(** In a legal timeline the position closed by the Sell at bar [j] was
    opened at an earlier bar [i], and no bar in between is marked. *)
Lemma sell_closes_earlier_buy (sigs : list Z) (h : bool) :
  position_after false sigs = Some h ->
  forall j, nth j sigs 0%Z = (-1)%Z ->
    exists i, (i < j)%nat /\ nth i sigs 0%Z = 1%Z /\
              forall k, (i < k < j)%nat -> nth k sigs 0%Z = 0%Z.
Proof.
  intros H j Hj.
  assert (Hlt : (j < length sigs)%nat).
  { destruct (Nat.lt_ge_cases j (length sigs)) as [|Hge]; [assumption|].
    rewrite nth_overflow in Hj by assumption. discriminate Hj. }
  destruct (nth_split sigs 0%Z Hlt) as (pre & post & Hs & Hpre).
  rewrite Hj in Hs.
  destruct (legal_single_position sigs h H) as (_ & Hsp).
  destruct (Hsp pre post Hs) as (a & b & Hab & Hb & _).
  assert (Hlen : j = (length a + S (length b))%nat).
  { rewrite <- Hpre, Hab, length_app. reflexivity. }
  exists (length a).
  assert (Hsigs : sigs = a ++ 1%Z :: (b ++ (-1)%Z :: post)).
  { rewrite Hs, Hab, <- app_assoc. reflexivity. }
  split; [lia|]. split.
  - rewrite Hsigs. apply nth_middle.
  - intros k Hk. rewrite Hsigs.
    rewrite app_nth2 by lia.
    replace (k - length a)%nat with (S (k - length a - 1)) by lia.
    simpl. rewrite app_nth1 by lia.
    rewrite Forall_forall in Hb. symmetry. apply Hb, nth_In. lia.
Qed.

Section FinalScan.

Context {F : Type} {DF : Double F}.
Local Open Scope dbl_scope.

Variable closes : list F.
Variable theta : F.

Lemma replay_from_position (sigs : list Z) :
  forall i lg lg', replay_from closes i lg sigs = Some lg' ->
                   position_after (open lg) sigs = Some (open lg').
Proof.
  induction sigs as [|s sigs IH]; intros i lg lg' H; simpl in *.
  - now inversion H.
  - apply bind_Some in H. destruct H as (lg1 & E1 & H).
    apply IH in H.
    destruct s as [|[p|p|]|[p|p|]]; simpl in E1; try discriminate E1.
    + now inversion E1; subst.
    + destruct (open lg); [discriminate E1|].
      apply bind_Some in E1. destruct E1 as (c & _ & E1).
      now inversion E1; subst.
    + destruct (open lg); [|discriminate E1].
      apply bind_Some in E1. destruct E1 as (c & _ & E1).
      now inversion E1; subst.
Qed.

(** What a finished scan knows about its own result. *)
Lemma Final_summary (lo : nat) (st : Scan F) :
  Final closes theta lo st ->
  exists lg,
    replay closes (signals st) = Some lg /\
    open lg = holding st /\
    open_price lg = entry st /\
    summary st = aggregate theta (returns lg) (signals st) /\
    length (signals st) = length closes /\
    position_after false (signals st) = Some (holding st).
Proof.
  intros (pre & lg & Hs & Hl & Hq & Hr & Ho & Hp & Ht & Hpr & Htr).
  rewrite Nat.sub_diag in Hs. simpl in Hs. rewrite app_nil_r in Hs.
  subst pre. exists lg. repeat split; auto.
  - unfold summary, aggregate. now rewrite Ht, Hpr, Htr.
  - rewrite <- Ho. apply (replay_from_position _ 0 ledger_init lg Hr).
Qed.

Lemma scan_defined (s : Strategy) :
  long_enough s (length closes) ->
  exists st, scan s closes theta = Some st /\
             Final closes theta (warmup s) st.
Proof.
  destruct s; simpl; intros H.
  - apply rsi_scan_final.
  - now apply macd_scan_final.
  - apply bollinger_scan_final.
Qed.

Lemma scan_Final (s : Strategy) (st : Scan F) :
  scan s closes theta = Some st -> Final closes theta (warmup s) st.
Proof.
  intros E.
  assert (H : long_enough s (length closes)).
  { destruct s; simpl; auto.
    destruct (Nat.le_gt_cases 27 (length closes)) as [Hn|Hn]; [assumption|].
    simpl in E. rewrite macd_scan_short in E by lia. discriminate E. }
  destruct (scan_defined s H) as (st' & E' & Hf). congruence.
Qed.

End FinalScan.

Lemma length_closes_of {F : Type} (candles : list (Candle F)) :
  length (closes_of candles) = length candles.
Proof. apply length_map. Qed.

Lemma run_scan {F : Type} {DF : Double F} (s : Strategy)
  (candles : list (Candle F)) (theta : F) :
  run s candles theta =
  bind (scan s (closes_of candles) theta) (fun st => Some (summary st)).
Proof. destruct s; reflexivity. Qed.

(** * Properties of the evaluators, for every number system *)

Section Evaluators.

Context {F : Type} {DF : Double F}.
Local Open Scope dbl_scope.

Lemma run_defined (s : Strategy) (candles : list (Candle F)) (theta : F) :
  long_enough s (length candles) ->
  exists st, scan s (closes_of candles) theta = Some st /\
             run s candles theta = Some (summary st) /\
             Final (closes_of candles) theta (warmup s) st.
Proof.
  intros H. rewrite <- length_closes_of in H.
  destruct (scan_defined (closes_of candles) theta s H) as (st & E & Hf).
  exists st. rewrite run_scan, E. auto.
Qed.

Lemma replay_from_unmarked (closes : list F) (b : list Z) :
  Forall (eq 0%Z) b ->
  forall i lg, replay_from closes i lg b = Some lg.
Proof.
  induction 1 as [|x b Hx Hb IH]; intros i lg; simpl; [reflexivity|].
  subst x. simpl. apply IH.
Qed.

(** A series no longer than the warm-up offset of the RSI or the
    Bollinger evaluator gives the zero summary. *)
Lemma short_series_zero_summary (s : Strategy) (candles : list (Candle F))
  (theta : F) :
  s <> MACD -> (length candles <= warmup s)%nat ->
  run s candles theta = Some (zero_summary (length candles)).
Proof.
  intros Hs Hn. rewrite <- length_closes_of in *.
  destruct s; try congruence; simpl in *.
  - unfold run_rsi_strategy, rsi_scan. now rewrite for_below_empty.
  - unfold run_bollinger_strategy, bollinger_scan.
    now rewrite for_below_empty.
Qed.

(** C1 (the MACD evaluator): on a series of fewer than 27 bars
    [run_macd_strategy] does not return the zero summary; it reads
    [closes[11]], [closes[25]] or [macd[0]] outside the vector, which is
    undefined behaviour in the source and [None] here. *)
Theorem macd_short_series_out_of_bounds (candles : list (Candle F))
  (theta : F) :
  (length candles < 27)%nat -> run_macd_strategy candles theta = None.
Proof.
  intros H. unfold run_macd_strategy.
  rewrite macd_scan_short; [reflexivity|]. now rewrite length_closes_of.
Qed.

(** C3: for every evaluator, series and threshold the signal timeline
    holds one position at a time: it is legal for the two-state machine,
    every Sell is preceded by one Buy with no signal in between and all
    earlier positions closed, and a step taken while Long ignores the
    entry rule while a step taken while Flat ignores the exit rule. *)
Theorem single_open_position (s : Strategy) (candles : list (Candle F))
  (theta : F) :
  long_enough s (length candles) ->
  (exists r, run s candles theta = Some r /\
             single_position (signal_positions r)) /\
  (forall macd signal i st st',
      step s (closes_of candles) macd signal theta i st = Some st' ->
      respects_position st st').
Proof.
  intros H. split.
  - destruct (run_defined s candles theta H) as (st & _ & E & Hf).
    destruct (Final_summary _ _ _ _ Hf) as (lg & _ & _ & _ & _ & _ & Hp).
    exists (summary st). split; [assumption|].
    apply (legal_single_position _ _ Hp).
  - intros macd signal i st st' E.
    apply (Move_respects_position (closes_of candles) theta (bar s i)).
    now apply (step_sound _ _ s macd signal).
Qed.

(** C4: a position still open when the scan ends is left out of the
    statistics.  The timeline then ends with the Buy that opened it and
    unmarked bars only (no Sell is forced, at the last bar or anywhere),
    and the summary is the aggregation of the trades completed before
    that Buy. *)
Theorem open_position_excluded (s : Strategy) (candles : list (Candle F))
  (theta : F) (st : Scan F) :
  scan s (closes_of candles) theta = Some st ->
  holding st = true ->
  run s candles theta = Some (summary st) /\
  exists pre post rets,
    signal_positions (summary st) = pre ++ 1%Z :: post /\
    Forall (eq 0%Z) post /\
    trade_returns (closes_of candles) pre = Some rets /\
    summary st = aggregate theta rets (signals st).
Proof.
  intros E Hh. split; [now rewrite run_scan, E|].
  pose proof (scan_Final _ _ _ _ E) as Hf.
  destruct (Final_summary _ _ _ _ Hf) as (lg & Hr & Ho & _ & Hs & _ & Hp).
  rewrite Hh in Hp.
  destruct (position_long_has_buy _ Hp) as (a & b & Hab & Hb & Ha).
  exists a, b, (returns lg). simpl. repeat split; auto.
  unfold trade_returns. unfold replay in *.
  rewrite Hab, replay_from_app in Hr.
  apply bind_Some in Hr. destruct Hr as (lga & Ea & Hr).
  rewrite Ea. simpl. f_equal. simpl in Hr.
  destruct (open lga); [discriminate Hr|].
  apply bind_Some in Hr. destruct Hr as (lg1 & E1 & Hr).
  apply bind_Some in E1. destruct E1 as (c & _ & E1).
  rewrite replay_from_unmarked in Hr by assumption.
  inversion Hr; inversion E1; subst. reflexivity.
Qed.

(** C10: each bar carries at most one action.  Every entry of the
    timeline is -1, 0 or 1, one entry per bar of the series; the position
    closed by a Sell was opened by a Buy at an earlier bar; and one step
    of a scanning loop does nothing, or buys and leaves the position open,
    or sells: it never does both on its bar. *)
Theorem one_action_per_bar (s : Strategy) (candles : list (Candle F))
  (theta : F) :
  long_enough s (length candles) ->
  (exists r, run s candles theta = Some r /\
             length (signal_positions r) = length candles /\
             Forall (fun x => is_signal x = true) (signal_positions r) /\
             forall j, nth j (signal_positions r) 0%Z = (-1)%Z ->
               exists i, (i < j)%nat /\
                         nth i (signal_positions r) 0%Z = 1%Z /\
                         forall k, (i < k < j)%nat ->
                                   nth k (signal_positions r) 0%Z = 0%Z) /\
  (forall macd signal i st st',
      step s (closes_of candles) macd signal theta i st = Some st' ->
      one_action (bar s i) st st').
Proof.
  intros H. split.
  - destruct (run_defined s candles theta H) as (st & _ & E & Hf).
    destruct (Final_summary _ _ _ _ Hf) as (lg & _ & _ & _ & _ & Hl & Hp).
    exists (summary st). split; [assumption|]. simpl.
    split; [now rewrite Hl, length_closes_of|].
    split; [apply (position_after_signals _ _ _ Hp)|].
    apply (sell_closes_earlier_buy _ _ Hp).
  - intros macd signal i st st' E.
    apply (Move_one_action (closes_of candles) theta (bar s i)).
    now apply (step_sound _ _ s macd signal).
Qed.

End Evaluators.

(** * Properties of the arithmetic, over the real numbers *)

Section RealArithmetic.

Local Open Scope R_scope.

Lemma Rltb_lt (x y : R) : Rltb x y = true <-> x < y.
Proof.
  unfold Rltb. destruct (Rlt_dec x y); split; auto; discriminate.
Qed.

Lemma Rltb_ge (x y : R) : Rltb x y = false <-> y <= x.
Proof.
  unfold Rltb. destruct (Rlt_dec x y); split; auto; try discriminate; lra.
Qed.

Lemma Reqb_eq (x y : R) : Reqb x y = true <-> x = y.
Proof.
  unfold Reqb. destruct (Req_dec_T x y); split; auto; discriminate.
Qed.




End RealArithmetic.

(** * Loops over the trailing window *)

Section Windows.

Lemma zrange_of_nat (len : nat) :
  forall start,
    map (fun k => (Z.of_nat start + Z.of_nat k)%Z) (seq 0 len) =
    map Z.of_nat (seq start len).
Proof.
  induction len as [|len IH]; intros start; [reflexivity|].
  simpl. f_equal; [f_equal; lia|].
  rewrite <- seq_shift, map_map, <- IH.
  apply map_ext. intros k. lia.
Qed.

Lemma skipn_nth_error {A : Type} (l : list A) :
  forall n x, nth_error l n = Some x -> skipn n l = x :: skipn (S n) l.
Proof.
  induction l as [|h t IH]; intros [|n] x H; simpl in *; try discriminate.
  - now inversion H.
  - now apply IH.
Qed.

Lemma window_length {A : Type} (l : list A) (i period : nat) :
  (period <= i + 1)%nat -> (i < length l)%nat ->
  length (window l i period) = period.
Proof.
  intros Hp Hi. unfold window. rewrite length_firstn, length_skipn. lia.
Qed.

(** An accumulation loop over [i - period + 1 .. i] folds its step over
    the trailing window, oldest close first. *)
Lemma foldM_window_fold {A S : Type} (f : S -> A -> S) (closes : list A)
  (len : nat) :
  forall start a0,
    (start + len <= length closes)%nat ->
    foldM (fun j acc => bind (vget closes j) (fun c => Some (f acc c)))
          (map Z.of_nat (seq start len)) a0 =
    Some (fold_left f (firstn len (skipn start closes)) a0).
Proof.
  induction len as [|len IH]; intros start a0 H; simpl; [reflexivity|].
  rewrite vget_of_nat.
  destruct (nth_error closes start) as [c|] eqn:E;
    [|apply nth_error_None in E; lia].
  simpl. rewrite IH by lia.
  now rewrite (skipn_nth_error closes start c E).
Qed.

Lemma for_upto_window_fold {A S : Type} (f : S -> A -> S) (closes : list A)
  (i period : nat) (a0 : S) :
  (period <= i + 1)%nat -> (i < length closes)%nat ->
  for_upto (Z.of_nat i - Z.of_nat period + 1) (Z.of_nat i)
    (fun j acc => bind (vget closes j) (fun c => Some (f acc c))) a0 =
  Some (fold_left f (window closes i period) a0).
Proof.
  intros Hp Hi. unfold for_upto, zrange, window.
  replace (Z.of_nat i - Z.of_nat period + 1)%Z
    with (Z.of_nat (i + 1 - period)) by lia.
  replace (Z.to_nat (Z.of_nat i - Z.of_nat (i + 1 - period) + 1))
    with period by lia.
  rewrite zrange_of_nat. apply foldM_window_fold. lia.
Qed.

End Windows.

(** * The threshold only moves the count of profitable trades *)

Section Threshold.

Local Open Scope R_scope.

Variable closes : list R.
Variables theta1 theta2 : R.
Hypothesis theta_le : theta1 <= theta2.










End Threshold.


(** * Runs on concrete series *)

Section ConcreteRuns.

Let fcandles (l : list Z) : list (Candle float) := candles_of_ints l.
Let theta : float := one_percent (F:=float).

(** The driver's 28 bars give no trade under any of the three
    strategies. *)
Example main_total_trades :
  map (fun s => option_map total_trades (run s (fcandles main_closes) theta))
      [RSI; MACD; Bollinger]
  = [Some 0%Z; Some 0%Z; Some 0%Z].
Proof. vm_compute. reflexivity. Qed.

Example rsi_series_timeline :
  option_map (fun r => (total_trades r, signal_positions r))
             (run RSI (fcandles rsi_series) theta)
  = Some (1, [0; 0; 0; 0; 0; 0; 0; 0; 0; 0; 0; 0; 0; 0; 0; 1; -1; 1])%Z.
Proof. vm_compute. reflexivity. Qed.

Example bollinger_series_timeline :
  option_map (fun r => (total_trades r, signal_positions r))
             (run Bollinger (fcandles bollinger_series) theta)
  = Some (1, [0; 0; 0; 0; 0; 0; 0; 0; 0; 0; 0; 0; 0; 0; 0; 0; 0; 0; 0; 0;
              1; -1; 1])%Z.
Proof. vm_compute. reflexivity. Qed.

Example macd_series_timeline :
  option_map (fun r => (total_trades r, signal_positions r))
             (run MACD (fcandles macd_series) theta)
  = Some (1, [0; 0; 0; 0; 0; 0; 0; 0; 0; 0; 0; 0; 0; 0; 0; 0; 0; 0; 0; 0;
              0; 0; 0; 0; 0; 0; 0; 0; 0; 1; 0; 0; -1; 0; 0; 1])%Z.
Proof. vm_compute. reflexivity. Qed.

(** The position machine on small timelines. *)
Example position_after_legal :
  position_after false [0; 1; 0; -1; 1]%Z = Some true.
Proof. reflexivity. Qed.

Example position_after_illegal :
  map (position_after false) [[1; 1]; [-1]; [0; 2]; [1; -1; -1]]%Z
  = [None; None; None; None].
Proof. reflexivity. Qed.

(** The one completed trade of [rsi_series] bought at 85 and sold at
    116. *)
Example rsi_series_trades :
  option_map (map (fun r => PrimFloat.eqb r (31 / 85)))
    (trade_returns (closes_of (fcandles rsi_series))
                   [0; 0; 0; 0; 0; 0; 0; 0; 0; 0; 0; 0; 0; 0; 0; 1; -1; 1]%Z)
  = Some [true].
Proof. vm_compute. reflexivity. Qed.

(** The first 26 bars of the driver's series, and the empty series, make
    the MACD evaluator read outside its vectors. *)
Example macd_26_bars :
  run_macd_strategy (fcandles (firstn 26 main_closes)) theta = None.
Proof. vm_compute. reflexivity. Qed.

Example macd_no_bars : run_macd_strategy (fcandles []) theta = None.
Proof. vm_compute. reflexivity. Qed.

(** In binary64 too a flat window gives RSI 0. *)
Example flat_rsi_binary64 :
  option_map (fun v => PrimFloat.eqb v 0)
    (calculate_rsi (map float_of_int (repeat 100%Z 15)) 14 14) = Some true.
Proof. vm_compute. reflexivity. Qed.

End ConcreteRuns.

(** * Witnesses and counterexamples *)

Lemma macd_short_series_witness :
  (length (candles_of_ints (F:=float) (firstn 26 main_closes)) < 27)%nat /\
  run_macd_strategy (candles_of_ints (F:=float) (firstn 26 main_closes))
    (one_percent (F:=float)) = None.
Proof.
  split; [simpl; lia|].
  apply macd_short_series_out_of_bounds. simpl. lia.
Defined.

Lemma single_open_position_witness :
  long_enough MACD (length (candles_of_ints (F:=float) macd_series)) /\
  (exists r, run MACD (candles_of_ints macd_series) (one_percent (F:=float)) = Some r /\
             single_position (signal_positions r)) /\
  (forall macd signal i st st',
      step MACD (closes_of (candles_of_ints (F:=float) macd_series))
           macd signal (one_percent (F:=float)) i st = Some st' ->
      respects_position st st').
Proof.
  split; [simpl; lia|].
  apply single_open_position. simpl. lia.
Defined.

Lemma open_position_excluded_witness :
  exists st : Scan float,
    scan RSI (closes_of (candles_of_ints rsi_series)) (one_percent (F:=float)) = Some st /\
    holding st = true /\
    run RSI (candles_of_ints rsi_series) (one_percent (F:=float)) = Some (summary st) /\
    exists pre post rets,
      signal_positions (summary st) = pre ++ 1%Z :: post /\
      Forall (eq 0%Z) post /\
      trade_returns (closes_of (candles_of_ints rsi_series)) pre = Some rets /\
      summary st = aggregate (one_percent (F:=float)) rets (signals st).
Proof.
  eexists. split; [vm_compute; reflexivity|]. split; [reflexivity|].
  apply open_position_excluded; [vm_compute; reflexivity | reflexivity].
Defined.

Lemma one_action_per_bar_witness :
  long_enough MACD (length (candles_of_ints (F:=float) macd_series)) /\
  exists r, run MACD (candles_of_ints (F:=float) macd_series) (one_percent (F:=float))
            = Some r /\
            length (signal_positions r) = 36%nat /\
            Forall (fun x => is_signal x = true) (signal_positions r).
Proof.
  split; [simpl; lia|].
  destruct (one_action_per_bar MACD (candles_of_ints macd_series)
              (one_percent (F:=float))) as ((r & E & Hl & Hs & _) & _);
    [simpl; lia|].
  exists r. split; [exact E|]. split; [exact Hl | exact Hs].
Defined.




(** * Further properties of the indicator library *)

Lemma foldM_fails {A S : Type} (body : A -> S -> option S) (l : list A)
  (a : A) :
  In a l -> (forall s, body a s = None) ->
  forall s, foldM body l s = None.
Proof.
  intros Hin Hf. induction l as [|b l IH]; intros s; [contradiction|].
  simpl. destruct Hin as [->|Hin].
  - now rewrite Hf.
  - destruct (body b s); [now apply IH | reflexivity].
Qed.

Lemma foldM_map {A B S : Type} (f : A -> B) (body : B -> S -> option S)
  (l : list A) :
  forall s, foldM body (map f l) s = foldM (fun a => body (f a)) l s.
Proof.
  induction l as [|a l IH]; intros s; simpl; [reflexivity|].
  destruct (body (f a) s); [apply IH | reflexivity].
Qed.

(** A counting loop over [lo .. hi] with an invariant that follows the
    index. *)
Lemma for_upto_inv_idx {S : Type} (P : Z -> S -> Prop)
  (body : Z -> S -> option S) (lo hi : Z) (s : S) :
  (lo <= hi + 1)%Z ->
  (forall i s, (lo <= i <= hi)%Z -> P i s ->
               exists s', body i s = Some s' /\ P (i + 1)%Z s') ->
  P lo s ->
  exists s', for_upto lo hi body s = Some s' /\ P (hi + 1)%Z s'.
Proof.
  intros Hle Hb Hs. unfold for_upto, zrange. rewrite foldM_map.
  destruct (foldM_seq_inv (fun k s => P (lo + Z.of_nat k)%Z s)
              (fun k => body (lo + Z.of_nat k)%Z)
              (Z.to_nat (hi - lo + 1)) 0 s) as (s' & E & H).
  - intros k s0 Hk HP.
    destruct (Hb (lo + Z.of_nat k)%Z s0) as (s1 & E1 & H1); [lia|assumption|].
    exists s1. split; [assumption|].
    replace (lo + Z.of_nat (Datatypes.S k))%Z with (lo + Z.of_nat k + 1)%Z
      by lia. exact H1.
  - now rewrite Z.add_0_r.
  - exists s'. split; [assumption|].
    replace (hi + 1)%Z with (lo + Z.of_nat (0 + Z.to_nat (hi - lo + 1)))%Z
      by lia. exact H.
Qed.

Section Bounds.

Context {F : Type} {DF : Double F}.
Local Open Scope dbl_scope.

(** X1: [sma] reads outside the vector exactly when its window is not below
    the start of the data ([start >= period - 1], so the sentinel is not
    returned) and [start] is not an index of the data. *)
Theorem sma_out_of_range_iff (data : list F) (start period : Z) :
  (1 <= period)%Z ->
  (sma data start period = None <->
   (period - 1 <= start /\ Z.of_nat (length data) <= start)%Z).
Proof.
  intros Hp. split.
  - intros H.
    destruct (Z.lt_ge_cases start (period - 1)) as [Hs|Hs].
    { unfold sma in H. destruct (Z.ltb_spec start (period - 1));
        [discriminate H | lia]. }
    split; [assumption|].
    destruct (Z.lt_ge_cases start (Z.of_nat (length data))) as [Hl|Hl];
      [|assumption].
    destruct (sma_defined data start period) as (m & E); [lia|]. congruence.
  - intros (Hs & Hl). unfold sma.
    destruct (Z.ltb_spec start (period - 1)); [lia|].
    unfold for_upto. rewrite (foldM_fails _ _ start); [reflexivity | |].
    + apply in_zrange. lia.
    + intros s. now rewrite vget_out_of_range.
Qed.

(** X2: [calculate_rsi] reads outside the vector exactly when the index is
    at least the period and is not an index of the series. *)
Theorem calculate_rsi_out_of_range_iff (closes : list F) (idx period : Z) :
  (1 <= period)%Z ->
  (calculate_rsi closes idx period = None <->
   (period <= idx /\ Z.of_nat (length closes) <= idx)%Z).
Proof.
  intros Hp. split.
  - intros H.
    destruct (Z.lt_ge_cases idx (Z.of_nat (length closes))) as [Hl|Hl].
    { destruct (calculate_rsi_defined closes idx period Hl) as (v & E).
      congruence. }
    split; [|assumption].
    unfold calculate_rsi in H.
    destruct (Z.ltb_spec idx period); [discriminate H | assumption].
  - intros (Hs & Hl). unfold calculate_rsi.
    destruct (Z.ltb_spec idx period); [lia|].
    unfold rsi_gain_loss, for_upto.
    rewrite (foldM_fails _ _ idx); [reflexivity | |].
    + apply in_zrange. lia.
    + intros [g l]. now rewrite vget_out_of_range.
Qed.

(** X3: The RSI and Bollinger evaluators stay inside their vectors on every
    series; the MACD evaluator leaves them exactly on series of fewer
    than 27 bars. *)
Theorem run_out_of_range_iff (s : Strategy) (candles : list (Candle F))
  (theta : F) :
  run s candles theta = None <-> (s = MACD /\ (length candles < 27)%nat).
Proof.
  split.
  - intros H.
    assert (Hn : ~ long_enough s (length candles)).
    { intros Hl. destruct (run_defined s candles theta Hl) as (st & _ & E & _).
      congruence. }
    destruct s; simpl in Hn; try (exfalso; now apply Hn).
    split; [reflexivity | lia].
  - intros (-> & Hn). simpl. unfold run_macd_strategy.
    rewrite macd_scan_short; [reflexivity|]. now rewrite length_closes_of.
Qed.

End Bounds.

Section RealRSI.

Local Open Scope R_scope.



End RealRSI.

(** * Further properties of the evaluators *)

Lemma for_below_step {S : Type} (body : nat -> S -> option S)
  (lo hi : nat) (s : S) :
  (lo < hi)%nat ->
  for_below lo hi body s =
  bind (body lo s) (fun s' => for_below (Datatypes.S lo) hi body s').
Proof.
  intros H. unfold for_below.
  replace (hi - lo)%nat with (Datatypes.S (hi - Datatypes.S lo)) by lia.
  simpl. destruct (body lo s); reflexivity.
Qed.

Section Counting.

Context {F : Type} {DF : Double F}.
Local Open Scope dbl_scope.

Lemma replay_from_counts (closes : list F) (sigs : list Z) :
  forall i lg lg',
    replay_from closes i lg sigs = Some lg' ->
    length (returns lg') =
      (length (returns lg) + count_occ Z.eq_dec sigs (-1)%Z)%nat /\
    (count_occ Z.eq_dec sigs 1%Z + (if open lg then 1 else 0) =
     count_occ Z.eq_dec sigs (-1)%Z + (if open lg' then 1 else 0))%nat.
Proof.
  induction sigs as [|s sigs IH]; intros i lg lg' H.
  - simpl in *. inversion H; subst. split; lia.
  - simpl in H. apply bind_Some in H. destruct H as (lg1 & E1 & H).
    apply IH in H. destruct H as (Hlen & Hcnt).
    destruct s as [|[p|p|]|[p|p|]]; simpl in E1; try discriminate E1.
    + inversion E1; subst lg1.
      repeat (rewrite count_occ_cons_neq by discriminate).
      split; assumption.
    + destruct (open lg) eqn:Ho; [discriminate E1|].
      apply bind_Some in E1. destruct E1 as (c & _ & E1).
      inversion E1; subst lg1. simpl in Hlen, Hcnt.
      rewrite (@count_occ_cons_eq Z Z.eq_dec sigs 1%Z 1%Z eq_refl).
      rewrite count_occ_cons_neq by discriminate. split; lia.
    + destruct (open lg) eqn:Ho; [|discriminate E1].
      apply bind_Some in E1. destruct E1 as (c & _ & E1).
      inversion E1; subst lg1. simpl in Hlen, Hcnt.
      rewrite length_app in Hlen. simpl in Hlen.
      rewrite (@count_occ_cons_eq Z Z.eq_dec sigs (-1)%Z (-1)%Z eq_refl).
      rewrite count_occ_cons_neq by discriminate. split; lia.
Qed.

(** X11: In every result [total_trades] is the number of Sell marks of the
    timeline, and the number of Buy marks is that number or one more
    (one more exactly when the last position was left open). *)
Theorem trades_count_sells (s : Strategy) (candles : list (Candle F))
  (theta : F) (r : TradeResult F) :
  run s candles theta = Some r ->
  total_trades r =
    Z.of_nat (count_occ Z.eq_dec (signal_positions r) (-1)%Z) /\
  exists still_open : bool,
    position_after false (signal_positions r) = Some still_open /\
    count_occ Z.eq_dec (signal_positions r) 1%Z =
    (count_occ Z.eq_dec (signal_positions r) (-1)%Z
     + (if still_open then 1 else 0))%nat.
Proof.
  intros E. rewrite run_scan in E. apply bind_Some in E.
  destruct E as (st & Es & E). inversion E; subst r. clear E.
  pose proof (scan_Final _ _ _ _ Es) as Hf.
  destruct (Final_summary _ _ _ _ Hf) as (lg & Hr & Ho & _ & Hs & _ & Hp).
  destruct (replay_from_counts _ _ _ _ _ Hr) as (Hlen & Hcnt).
  simpl in Hlen, Hcnt. rewrite Hs. simpl. split; [now rewrite Hlen|].
  exists (holding st). split; [assumption|]. rewrite <- Ho. lia.
Qed.

(** X12: With a less-than test that no value passes against itself (true of
    the reals and of binary64), the MACD evaluator never marks bar 27:
    the signal line starts equal to the MACD line, so no crossover can
    be seen at the first bar it looks at. *)
Theorem macd_bar_27_unmarked (candles : list (Candle F)) (theta : F) :
  (forall x : F, (x <? x) = false) ->
  (27 <= length candles)%nat ->
  exists r, run_macd_strategy candles theta = Some r /\
            forall j, (j < 28)%nat -> nth j (signal_positions r) 0%Z = 0%Z.
Proof.
  intros Hirr Hn. rewrite <- length_closes_of in Hn.
  set (closes := closes_of candles) in *.
  unfold run_macd_strategy, macd_scan. fold closes.
  destruct (vget_in_range closes 11) as (c11 & E11); [lia|].
  destruct (vget_in_range closes 25) as (c25 & E25); [lia|].
  destruct (ema_defined closes 26 12 c11) as (e12 & E12); [lia|].
  destruct (ema_defined closes 26 26 c25) as (e26 & E26); [lia|].
  destruct (macd_line_spec closes c11 c25 e12 e26 Hn E11 E25 E12 E26)
    as (macd & Em & Hlm & Hhm).
  destruct (signal_line_spec macd) as (signal & Es & Hls & Hhs); [lia|].
  rewrite Em. simpl. rewrite Es. simpl.
  assert (Hfin : exists st,
             for_below 1 (length signal)
               (macd_body closes macd signal theta) (scan_init closes)
             = Some st /\ Final closes theta 28 st).
  { destruct (Nat.le_gt_cases (length signal) 1) as [H1|H1].
    - rewrite for_below_empty by assumption.
      eexists; split; [reflexivity|]. apply Inv_init. lia.
    - rewrite for_below_step by assumption.
      assert (E1 : macd_body closes macd signal theta 1 (scan_init closes)
                   = Some (scan_init closes)).
      { unfold macd_body. simpl.
        destruct macd as [|m0 macd']; [discriminate Hhm|].
        destruct signal as [|s0 signal']; [discriminate Hhs|].
        simpl in Hhs. inversion Hhs; subst s0.
        change (vget (m0 :: macd') 0) with (Some m0).
        change (vget (m0 :: signal') 0) with (Some m0).
        simpl. now rewrite Hirr. }
      rewrite E1. simpl.
      destruct (for_below_inv (fun i st => Inv closes theta 28 (i + 26) st)
                  (macd_body closes macd signal theta) 2 (length signal)
                  (scan_init closes)) as (st & E & HI).
      + lia.
      + intros i st Hi HI.
        destruct (macd_body_move closes theta macd signal i st)
          as (st' & E & Hm);
          [lia | lia | lia | lia
          | apply (Inv_length closes theta 28 (i + 26)); [lia|assumption] |].
        exists st'. split; [assumption|].
        apply (Move_Inv closes theta 28 (i + 26) st); auto. lia.
      + apply Inv_init. lia.
      + exists st. split; [assumption|]. unfold Final.
        assert (Hend : (length signal + 26)%nat = length closes) by lia.
        rewrite <- Hend. exact HI. }
  destruct Hfin as (st & E & Hf). rewrite E. simpl.
  eexists; split; [reflexivity|]. simpl.
  apply (Inv_quiet _ _ _ _ _ Hf).
Qed.

End Counting.

Section RealSummary.

Local Open Scope R_scope.






End RealSummary.

(** * The evaluators against the table of rules *)

Lemma mapM_Some {A B : Type} (f : A -> option B) (l : list A) :
  (forall a, In a l -> exists b, f a = Some b) ->
  exists bs, mapM f l = Some bs.
Proof.
  induction l as [|a l IH]; intros H; simpl; [eauto|].
  destruct (H a) as (b & Eb); [now left|]. rewrite Eb.
  destruct IH as (bs & Ebs); [intros; apply H; now right|].
  rewrite Ebs. eauto.
Qed.

Lemma mapM_length {A B : Type} (f : A -> option B) (l : list A) :
  forall bs, mapM f l = Some bs -> length bs = length l.
Proof.
  induction l as [|a l IH]; intros bs H; simpl in H.
  - now inversion H.
  - destruct (f a); [|discriminate H].
    destruct (mapM f l) as [bs'|]; [|discriminate H].
    inversion H; subst. simpl. f_equal. now apply IH.
Qed.

Lemma drive_length (rules : list (bool * bool)) :
  forall long, length (drive long rules) = length rules.
Proof.
  induction rules as [|[e x] rules IH]; intros long; simpl; [reflexivity|].
  destruct long; [destruct x | destruct e]; simpl; now rewrite IH.
Qed.

Section Refinement.

Context {F : Type} {DF : Double F}.
Local Open Scope dbl_scope.

Variable closes : list F.
Variable theta : F.

Lemma rsi_body_act (i : nat) (e x : bool) (st : Scan F) :
  rsi_rule closes i = Some (e, x) ->
  rsi_body closes theta i st = act closes theta i e x st.
Proof.
  unfold rsi_rule, rsi_body, act. intros H.
  destruct (calculate_rsi closes (Z.of_nat i) 14) as [rsi|]; simpl in *;
    [|discriminate H].
  inversion H; subst. destruct (holding st); simpl.
  - destruct (of_int 70 <? rsi); reflexivity.
  - destruct (rsi <? of_int 30); reflexivity.
Qed.

Lemma bollinger_body_act (i : nat) (e x : bool) (st : Scan F) :
  bollinger_rule closes i = Some (e, x) ->
  bollinger_body closes theta 20 i st = act closes theta i e x st.
Proof.
  unfold bollinger_rule, bollinger_body, act. intros H.
  destruct (bollinger_bands closes i 20) as [[[[ma sd] up] low]|];
    simpl in *; [|discriminate H].
  destruct (vget closes (Z.of_nat i)) as [c|]; simpl in *; [|discriminate H].
  inversion H; subst. destruct (holding st); simpl.
  - destruct (up <? c); reflexivity.
  - destruct (c <? low); reflexivity.
Qed.

Lemma macd_body_act (macd signal : list F) (i : nat) (e x : bool)
  (st : Scan F) :
  macd_rule macd signal i = Some (e, x) ->
  macd_body closes macd signal theta i st = act closes theta (i + 26) e x st.
Proof.
  unfold macd_rule, macd_body, act. intros H.
  destruct (vget macd (Z.of_nat (i - 1))) as [m1|]; simpl in *;
    [|discriminate H].
  destruct (vget signal (Z.of_nat (i - 1))) as [s1|]; simpl in *;
    [|discriminate H].
  destruct (vget macd (Z.of_nat i)) as [m|]; simpl in *; [|discriminate H].
  destruct (vget signal (Z.of_nat i)) as [s|]; simpl in *; [|discriminate H].
  inversion H; subst. destruct (holding st); simpl.
  - destruct (s1 <? m1); simpl; [|reflexivity].
    destruct (m <? s); reflexivity.
  - destruct (m1 <? s1); simpl; [|reflexivity].
    destruct (s <? m); reflexivity.
Qed.

(** A scanning loop whose body follows the rules leaves the marks of
    the position machine on the bars it visits. *)
Lemma foldM_act_drive (body : nat -> Scan F -> option (Scan F))
  (rule : nat -> option (bool * bool)) (off : nat) (len : nat) :
  (forall i e x st, rule i = Some (e, x) ->
                    body i st = act closes theta (i + off) e x st) ->
  forall a m st pre st' rl,
    signals st = pre ++ repeat 0%Z m ->
    length pre = (a + off)%nat ->
    (len <= m)%nat ->
    mapM rule (seq a len) = Some rl ->
    foldM body (seq a len) st = Some st' ->
    signals st' = pre ++ drive (holding st) rl ++ repeat 0%Z (m - len).
Proof.
  intros Hact. induction len as [|len IH];
    intros a m st pre st' rl Hs Hl Hm Hrl Hf; simpl in *.
  - inversion Hrl; inversion Hf; subst. simpl. now rewrite Nat.sub_0_r.
  - destruct (rule a) as [[e x]|] eqn:Er; [|discriminate Hrl].
    destruct (mapM rule (seq (S a) len)) as [rl'|] eqn:Erl;
      [|discriminate Hrl].
    inversion Hrl; subst rl. clear Hrl.
    rewrite (Hact a e x st Er) in Hf.
    destruct m as [|m]; [lia|]. simpl in Hs.
    assert (Hstay : forall st1,
               signals st1 = signals st ->
               foldM body (seq (S a) len) st1 = Some st' ->
               signals st' =
               pre ++ 0%Z :: drive (holding st1) rl' ++ repeat 0%Z (m - len)).
    { intros st1 Hs1 Hf1.
      rewrite (IH (S a) m st1 (pre ++ [0%Z]) st' rl'); auto.
      - now rewrite <- app_assoc.
      - rewrite Hs1, Hs, <- app_assoc. reflexivity.
      - rewrite length_app. simpl. lia.
      - lia. }
    assert (Hmark : forall st1 mark,
               signals st1 = pre ++ mark :: repeat 0%Z m ->
               foldM body (seq (S a) len) st1 = Some st' ->
               signals st' =
               pre ++ mark :: drive (holding st1) rl' ++ repeat 0%Z (m - len)).
    { intros st1 mark Hs1 Hf1.
      rewrite (IH (S a) m st1 (pre ++ [mark]) st' rl'); auto.
      - now rewrite <- app_assoc.
      - rewrite Hs1, <- app_assoc. reflexivity.
      - rewrite length_app. simpl. lia.
      - lia. }
    unfold act in Hf. simpl.
    destruct (holding st) eqn:Hh; [destruct x | destruct e].
    + destruct (vget closes (Z.of_nat (a + off))) as [c|]; simpl in Hf;
        [|discriminate Hf].
      rewrite Hs, <- Hl, vset_app in Hf. simpl in Hf.
      now apply (Hmark (sold theta c (pre ++ (-1)%Z :: repeat 0%Z m) st)).
    + rewrite <- Hh. now apply Hstay.
    + destruct (vget closes (Z.of_nat (a + off))) as [c|]; simpl in Hf;
        [|discriminate Hf].
      rewrite Hs, <- Hl, vset_app in Hf. simpl in Hf.
      now apply (Hmark (bought c (pre ++ 1%Z :: repeat 0%Z m) st)).
    + rewrite <- Hh. now apply Hstay.
Qed.

End Refinement.

Section RefinementResults.

Context {F : Type} {DF : Double F}.
Local Open Scope dbl_scope.

Variable closes : list F.
Variable theta : F.

Lemma scan_drive (body : nat -> Scan F -> option (Scan F))
  (rule : nat -> option (bool * bool)) (off a : nat) (st : Scan F) :
  (forall i e x st, rule i = Some (e, x) ->
                    body i st = act closes theta (i + off) e x st) ->
  (a + off <= length closes)%nat ->
  (forall i, (a <= i < a + (length closes - (a + off)))%nat ->
             exists er, rule i = Some er) ->
  foldM body (seq a (length closes - (a + off))) (scan_init closes)
    = Some st ->
  exists rl, mapM rule (seq a (length closes - (a + off))) = Some rl /\
             signals st = repeat 0%Z (a + off) ++ drive false rl.
Proof.
  intros Hact Hn Hdef Hf.
  destruct (mapM_Some rule (seq a (length closes - (a + off)))) as (rl & Erl).
  { intros i Hi. apply in_seq in Hi. apply Hdef. lia. }
  exists rl. split; [assumption|].
  rewrite (foldM_act_drive closes theta body rule off
             (length closes - (a + off)) Hact a
             (length closes - (a + off)) (scan_init closes)
             (repeat 0%Z (a + off)) st rl); auto.
  - simpl. rewrite Nat.sub_diag. simpl. now rewrite app_nil_r.
  - simpl. rewrite <- repeat_app. f_equal. lia.
  - apply repeat_length.
Qed.

Lemma rsi_rule_defined (i : nat) :
  (i < length closes)%nat -> exists er, rsi_rule closes i = Some er.
Proof.
  intros Hi. unfold rsi_rule.
  destruct (calculate_rsi_defined closes (Z.of_nat i) 14) as (v & E); [lia|].
  rewrite E. simpl. eauto.
Qed.

Lemma bollinger_rule_defined (i : nat) :
  (19 <= i < length closes)%nat ->
  exists er, bollinger_rule closes i = Some er.
Proof.
  intros Hi. unfold bollinger_rule.
  destruct (bollinger_bands_defined closes i 20)
    as ([[[ma sd] up] low] & E); [lia | lia |].
  destruct (vget_in_range closes (Z.of_nat i)) as (c & Ec); [lia|].
  rewrite E. simpl. rewrite Ec. simpl. eauto.
Qed.

Lemma macd_rule_defined (macd signal : list F) (i : nat) :
  (1 <= i)%nat -> (i < length macd)%nat -> (i < length signal)%nat ->
  exists er, macd_rule macd signal i = Some er.
Proof.
  intros H1 Hm Hs. unfold macd_rule.
  destruct (vget_in_range macd (Z.of_nat (i - 1))) as (m1 & Em1); [lia|].
  destruct (vget_in_range signal (Z.of_nat (i - 1))) as (s1 & Es1); [lia|].
  destruct (vget_in_range macd (Z.of_nat i)) as (m & Em); [lia|].
  destruct (vget_in_range signal (Z.of_nat i)) as (s & Es); [lia|].
  rewrite Em1, Es1. simpl. rewrite Em, Es. simpl. eauto.
Qed.

Lemma scan_follows_rules (s : Strategy) (st : Scan F) :
  scan s closes theta = Some st ->
  exists rl, rules_of s closes = Some rl /\
             signals st =
             repeat 0%Z (Nat.min (warmup s) (length closes))
             ++ drive false rl.
Proof.
  destruct s; intros E; unfold scan in E; unfold rules_of, warmup.
  - unfold rsi_scan, for_below in E.
    destruct (Nat.le_gt_cases 15 (length closes)) as [Hn|Hn].
    + rewrite Nat.min_l by assumption.
      apply (scan_drive (rsi_body closes theta) (rsi_rule closes) 0 15);
        auto.
      * intros i e x st0 Hr. rewrite Nat.add_0_r.
        now apply rsi_body_act.
      * intros i Hi. apply rsi_rule_defined. lia.
    + rewrite Nat.min_r by lia.
      replace (length closes - 15)%nat with 0%nat in * by lia.
      simpl in E. inversion E; subst st.
      exists []. split; [reflexivity|]. simpl. now rewrite app_nil_r.
  - destruct (Nat.le_gt_cases 27 (length closes)) as [Hn|Hn];
      [|rewrite macd_scan_short in E by lia; discriminate E].
    unfold macd_scan in E.
    destruct (vget_in_range closes 11) as (c11 & E11); [lia|].
    destruct (vget_in_range closes 25) as (c25 & E25); [lia|].
    destruct (ema_defined closes 26 12 c11) as (e12 & E12); [lia|].
    destruct (ema_defined closes 26 26 c25) as (e26 & E26); [lia|].
    destruct (macd_line_spec closes c11 c25 e12 e26 Hn E11 E25 E12 E26)
      as (macd & Em & Hlm & _).
    destruct (signal_line_spec macd) as (signal & Es & Hls & _); [lia|].
    rewrite Nat.min_l by assumption.
    rewrite Em in *. simpl in *. rewrite Es in *. simpl in *.
    unfold for_below in E.
    replace (length signal - 1)%nat with (length closes - (1 + 26))%nat
      in * by lia.
    apply (scan_drive (macd_body closes macd signal theta)
             (macd_rule macd signal) 26 1); auto.
    + intros i e x st0 Hr. now apply macd_body_act.
    + intros i Hi. apply macd_rule_defined; lia.
  - unfold bollinger_scan, for_below in E. change (Z.to_nat 20) with 20%nat in E.
    destruct (Nat.le_gt_cases 20 (length closes)) as [Hn|Hn].
    + rewrite Nat.min_l by assumption.
      apply (scan_drive (bollinger_body closes theta 20)
               (bollinger_rule closes) 0 20); auto.
      * intros i e x st0 Hr. rewrite Nat.add_0_r.
        now apply bollinger_body_act.
      * intros i Hi. apply bollinger_rule_defined. lia.
    + rewrite Nat.min_r by lia.
      replace (length closes - 20)%nat with 0%nat in * by lia.
      simpl in E. inversion E; subst st.
      exists []. split; [reflexivity|]. simpl. now rewrite app_nil_r.
Qed.

End RefinementResults.

(** X15: In every result the timeline is the one of the spec's table: no mark
    below the warm-up offset, then the marks of the two-state position
    machine driven, bar by bar, by the entry and exit rules of the
    strategy. *)
Theorem timeline_follows_rules {F : Type} {DF : Double F} (s : Strategy)
  (candles : list (Candle F)) (theta : F) (r : TradeResult F) :
  run s candles theta = Some r ->
  exists rl, rules_of s (closes_of candles) = Some rl /\
             signal_positions r =
             repeat 0%Z (Nat.min (warmup s) (length candles))
             ++ drive false rl.
Proof.
  intros E. rewrite run_scan in E. apply bind_Some in E.
  destruct E as (st & Es & E). inversion E; subst r. clear E.
  destruct (scan_follows_rules _ _ _ _ Es) as (rl & Erl & Hs).
  exists rl. split; [assumption|]. simpl.
  now rewrite Hs, length_closes_of.
Qed.

(** * The RSI evaluator on a series that never turns *)



Section MonotoneSeries.

Local Open Scope R_scope.


End MonotoneSeries.

(** * No look-ahead: a prefix of the series gives a prefix of the timeline *)

Lemma firstn_seq_min (k : nat) :
  forall a len, firstn k (seq a len) = seq a (Nat.min k len).
Proof.
  induction k as [|k IH]; intros a [|len]; simpl; try reflexivity.
  now rewrite IH.
Qed.

Lemma firstn_repeat_min {A : Type} (x : A) (k : nat) :
  forall n, firstn k (repeat x n) = repeat x (Nat.min k n).
Proof.
  induction k as [|k IH]; intros [|n]; simpl; try reflexivity.
  now rewrite IH.
Qed.

Lemma mapM_firstn {A B : Type} (f : A -> option B) (l : list A) :
  forall k bs, mapM f l = Some bs ->
               mapM f (firstn k l) = Some (firstn k bs).
Proof.
  induction l as [|a l IH]; intros k bs H; simpl in H.
  - inversion H; subst. now rewrite !firstn_nil.
  - destruct (f a) as [b|] eqn:Eb; [|discriminate H].
    destruct (mapM f l) as [bs'|] eqn:Ebs; [|discriminate H].
    inversion H; subst. destruct k as [|k]; simpl; [reflexivity|].
    now rewrite Eb, (IH k bs' eq_refl).
Qed.

Lemma mapM_ext_in {A B : Type} (f g : A -> option B) (l : list A) :
  (forall a, In a l -> f a = g a) -> mapM f l = mapM g l.
Proof.
  induction l as [|a l IH]; intros H; simpl; [reflexivity|].
  rewrite (H a) by now left. rewrite IH; [reflexivity|].
  intros a' Ha'. apply H. now right.
Qed.

Lemma foldM_ext_in {A S : Type} (b1 b2 : A -> S -> option S) (l : list A) :
  (forall a s, In a l -> b1 a s = b2 a s) ->
  forall s, foldM b1 l s = foldM b2 l s.
Proof.
  induction l as [|a l IH]; intros H s; simpl; [reflexivity|].
  rewrite (H a s) by now left.
  destruct (b2 a s); [|reflexivity]. apply IH.
  intros a' s' Ha'. apply H. now right.
Qed.

Lemma foldM_app {A S : Type} (body : A -> S -> option S) (l1 l2 : list A) :
  forall s, foldM body (l1 ++ l2) s =
            bind (foldM body l1 s) (foldM body l2).
Proof.
  induction l1 as [|a l1 IH]; intros s; simpl; [reflexivity|].
  destruct (body a s); [apply IH | reflexivity].
Qed.

Lemma foldM_preserves {A S : Type} (P : S -> Prop)
  (body : A -> S -> option S) (l : list A) :
  (forall a s s', body a s = Some s' -> P s -> P s') ->
  forall s s', foldM body l s = Some s' -> P s -> P s'.
Proof.
  intros Hb. induction l as [|a l IH]; intros s s' H Hs; simpl in H.
  - now inversion H; subst.
  - destruct (body a s) as [s1|] eqn:E; [|discriminate H].
    apply (IH s1 s' H). now apply (Hb a s s1).
Qed.

Lemma for_below_split {S : Type} (body : nat -> S -> option S)
  (lo mid hi : nat) (s : S) :
  (lo <= mid <= hi)%nat ->
  for_below lo hi body s =
  bind (for_below lo mid body s) (for_below mid hi body).
Proof.
  intros H. unfold for_below.
  replace (hi - lo)%nat with ((mid - lo) + (hi - mid))%nat by lia.
  rewrite seq_app, foldM_app.
  now replace (lo + (mid - lo))%nat with mid by lia.
Qed.

Lemma drive_firstn (k : nat) :
  forall long rules,
    firstn k (drive long rules) = drive long (firstn k rules).
Proof.
  induction k as [|k IH]; intros long [|[e x] rules]; simpl; try reflexivity.
  destruct long; [destruct x | destruct e]; simpl; now rewrite IH.
Qed.

Lemma vget_firstn {A : Type} (l : list A) (m : nat) (i : Z) :
  (i < Z.of_nat m)%Z -> vget (firstn m l) i = vget l i.
Proof.
  intros H. unfold vget. destruct (Z.ltb_spec i 0); [reflexivity|].
  rewrite nth_error_firstn.
  destruct (Nat.ltb_spec (Z.to_nat i) m); [reflexivity | lia].
Qed.

Section PrefixIndicators.

Context {F : Type} {DF : Double F}.
Local Open Scope dbl_scope.

Variable closes : list F.
Variable m : nat.

Lemma sma_firstn (start period : Z) :
  (start < Z.of_nat m)%Z ->
  sma (firstn m closes) start period = sma closes start period.
Proof.
  intros H. unfold sma, for_upto.
  rewrite (foldM_ext_in _
             (fun i sum => x <- vget closes i ;; Some (sum + x))).
  - reflexivity.
  - intros i s Hi. apply in_zrange in Hi. now rewrite vget_firstn by lia.
Qed.

Lemma ema_firstn (i : nat) (period : Z) (prev : F) :
  (i < m)%nat -> ema (firstn m closes) i period prev = ema closes i period prev.
Proof. intros H. unfold ema. now rewrite vget_firstn by lia. Qed.

Lemma calculate_rsi_firstn (idx period : Z) :
  (idx < Z.of_nat m)%Z ->
  calculate_rsi (firstn m closes) idx period = calculate_rsi closes idx period.
Proof.
  intros H. unfold calculate_rsi, rsi_gain_loss, for_upto.
  rewrite (foldM_ext_in _
             (fun i '(gain, loss) =>
                c <- vget closes i ;;
                p <- vget closes (i - 1) ;;
                let change := c - p in
                if change >? of_int 0 then Some (gain + change, loss)
                else Some (gain, loss - change))).
  - reflexivity.
  - intros i [g l] Hi. apply in_zrange in Hi.
    now rewrite !vget_firstn by lia.
Qed.

Lemma bollinger_bands_firstn (i : nat) (period : Z) :
  (i < m)%nat ->
  bollinger_bands (firstn m closes) i period = bollinger_bands closes i period.
Proof.
  intros H. unfold bollinger_bands. rewrite sma_firstn by lia.
  destruct (sma closes (Z.of_nat i) period) as [ma|]; simpl; [|reflexivity].
  unfold for_upto.
  rewrite (foldM_ext_in _
             (fun j stddev =>
                c <- vget closes j ;;
                Some (stddev + (c - ma) * (c - ma)))).
  - reflexivity.
  - intros j s Hj. apply in_zrange in Hj. now rewrite vget_firstn by lia.
Qed.

Lemma rsi_rule_firstn (i : nat) :
  (i < m)%nat -> rsi_rule (firstn m closes) i = rsi_rule closes i.
Proof. intros H. unfold rsi_rule. now rewrite calculate_rsi_firstn by lia. Qed.

Lemma bollinger_rule_firstn (i : nat) :
  (i < m)%nat -> bollinger_rule (firstn m closes) i = bollinger_rule closes i.
Proof.
  intros H. unfold bollinger_rule.
  now rewrite bollinger_bands_firstn, vget_firstn by lia.
Qed.

End PrefixIndicators.

Section PrefixMACD.

Context {F : Type} {DF : Double F}.
Local Open Scope dbl_scope.

(** The loop of lines 85-89, started from any state. *)
Let macd_loop (closes : list F) (lo hi : nat) (s : F * F * list F)
  : option (F * F * list F) :=
  for_below lo hi
    (fun i '(ema12, ema26, macd) =>
       ema12' <- ema closes i 12 ema12 ;;
       ema26' <- ema closes i 26 ema26 ;;
       Some (ema12', ema26', macd ++ [ema12' - ema26']))
    s.

(** The loop of lines 92-93, started from any state. *)
Let signal_loop (macd : list F) (lo hi : nat) (s : list F)
  : option (list F) :=
  for_below lo hi
    (fun i signal =>
       prev <- back signal ;;
       e <- ema macd i 9 prev ;;
       Some (signal ++ [e]))
    s.

Lemma macd_loop_grows (closes : list F) (lo hi : nat)
  (s s' : F * F * list F) :
  macd_loop closes lo hi s = Some s' ->
  exists extra, snd s' = snd s ++ extra /\
                length extra = (hi - lo)%nat.
Proof.
  unfold macd_loop, for_below. generalize (hi - lo)%nat as len.
  intros len. revert lo s.
  induction len as [|len IH]; intros lo s H; simpl in H.
  - inversion H; subst. exists []. now rewrite app_nil_r.
  - destruct s as [[a b] l]. simpl in H.
    destruct (ema closes lo 12 a) as [a'|]; simpl in H; [|discriminate H].
    destruct (ema closes lo 26 b) as [b'|]; simpl in H; [|discriminate H].
    apply IH in H. destruct H as (extra & He & Hl). simpl in He.
    exists ((a' - b') :: extra). simpl.
    rewrite He, <- app_assoc. simpl. split; [reflexivity | now rewrite Hl].
Qed.

Lemma signal_loop_grows (macd : list F) (lo hi : nat) (s s' : list F) :
  signal_loop macd lo hi s = Some s' ->
  exists extra, s' = s ++ extra /\ length extra = (hi - lo)%nat.
Proof.
  unfold signal_loop, for_below. generalize (hi - lo)%nat as len.
  intros len. revert lo s.
  induction len as [|len IH]; intros lo s H; simpl in H.
  - inversion H; subst. exists []. now rewrite app_nil_r.
  - destruct (back s) as [prev|]; simpl in H; [|discriminate H].
    destruct (ema macd lo 9 prev) as [e|]; simpl in H; [|discriminate H].
    apply IH in H. destruct H as (extra & He & Hl).
    exists (e :: extra). simpl.
    rewrite He, <- app_assoc. simpl. split; [reflexivity | now rewrite Hl].
Qed.

Lemma macd_line_length (closes macd : list F) :
  macd_line closes = Some macd ->
  (26 <= length closes)%nat /\ length macd = (length closes - 26)%nat.
Proof.
  unfold macd_line. intros H.
  destruct (vget closes 11) as [c11|]; simpl in H; [|discriminate H].
  destruct (vget closes 25) as [c25|] eqn:E25; simpl in H; [|discriminate H].
  assert (Hn : (26 <= length closes)%nat).
  { destruct (Nat.le_gt_cases 26 (length closes)); [assumption|].
    rewrite vget_out_of_range in E25 by lia. discriminate E25. }
  split; [assumption|].
  apply bind_Some in H. destruct H as ([[a b] l] & E & H).
  inversion H; subst l. clear H.
  destruct (macd_loop_grows closes 26 (length closes) _ _ E)
    as (extra & He & Hl). simpl in He. now subst.
Qed.

Lemma signal_line_length (macd signal : list F) :
  signal_line macd = Some signal ->
  (1 <= length macd)%nat /\ length signal = length macd.
Proof.
  unfold signal_line. intros H.
  destruct macd as [|m0 rest]; [discriminate H|].
  change (vget (m0 :: rest) 0) with (Some m0) in H. simpl bind in H.
  destruct (signal_loop_grows (m0 :: rest) 1 (length (m0 :: rest)) _ _ H)
    as (extra & He & Hl).
  subst signal. simpl in *. split; [lia|]. rewrite Hl. lia.
Qed.

Lemma macd_line_firstn (closes : list F) (m : nat) (macd macd' : list F) :
  (m <= length closes)%nat ->
  macd_line closes = Some macd ->
  macd_line (firstn m closes) = Some macd' ->
  macd' = firstn (m - 26) macd.
Proof.
  intros Hm H H'.
  destruct (macd_line_length _ _ H') as (Hm26 & Hlen').
  rewrite length_firstn, Nat.min_l in Hm26, Hlen' by assumption.
  unfold macd_line in H, H'.
  rewrite !vget_firstn in H' by lia.
  destruct (vget closes 11) as [c11|]; simpl in H, H'; [|discriminate H].
  destruct (vget closes 25) as [c25|]; simpl in H, H'; [|discriminate H].
  apply bind_Some in H. destruct H as ([[a b] l] & E & H).
  inversion H; subst l. clear H.
  apply bind_Some in H'. destruct H' as ([[a' b'] l'] & E' & H').
  inversion H'; subst l'. clear H'.
  rewrite length_firstn, Nat.min_l in E' by assumption.
  unfold for_below in E'.
  rewrite (foldM_ext_in _
             (fun i '(ema12, ema26, macd) =>
                ema12' <- ema closes i 12 ema12 ;;
                ema26' <- ema closes i 26 ema26 ;;
                Some (ema12', ema26', macd ++ [ema12' - ema26']))) in E'.
  2:{ intros i [[x y] l] Hi. apply in_seq in Hi.
      now rewrite !ema_firstn by lia. }
  rewrite (for_below_split _ 26 m (length closes)) in E by lia.
  unfold for_below at 1 in E. rewrite E' in E. simpl in E.
  destruct (macd_loop_grows closes m (length closes) _ _ E)
    as (extra & He & _). simpl in He. subst macd.
  rewrite firstn_app, Hlen', Nat.sub_diag. simpl.
  rewrite app_nil_r. symmetry. apply firstn_all2. lia.
Qed.

Lemma signal_line_firstn (macd : list F) (k : nat) (signal signal' : list F) :
  (k <= length macd)%nat ->
  signal_line macd = Some signal ->
  signal_line (firstn k macd) = Some signal' ->
  signal' = firstn k signal.
Proof.
  intros Hk H H'.
  destruct (signal_line_length _ _ H') as (Hk1 & Hlen').
  rewrite length_firstn, Nat.min_l in Hk1, Hlen' by assumption.
  unfold signal_line in H, H'.
  rewrite vget_firstn in H' by lia.
  destruct (vget macd 0) as [m0|]; simpl in H, H'; [|discriminate H].
  rewrite length_firstn, Nat.min_l in H' by assumption.
  unfold for_below in H'.
  rewrite (foldM_ext_in _
             (fun i signal =>
                prev <- back signal ;;
                e <- ema macd i 9 prev ;;
                Some (signal ++ [e]))) in H'.
  2:{ intros i s Hi. apply in_seq in Hi.
      destruct (back s); simpl; [|reflexivity].
      now rewrite ema_firstn by lia. }
  rewrite (for_below_split _ 1 k (length macd)) in H by lia.
  unfold for_below at 1 in H. rewrite H' in H. simpl in H.
  destruct (signal_loop_grows macd k (length macd) _ _ H)
    as (extra & He & _). subst signal.
  rewrite firstn_app, Hlen', Nat.sub_diag. simpl.
  rewrite app_nil_r. symmetry. apply firstn_all2. lia.
Qed.

Lemma macd_rule_firstn (macd signal : list F) (k i : nat) :
  (i < k)%nat ->
  macd_rule (firstn k macd) (firstn k signal) i = macd_rule macd signal i.
Proof.
  intros H. unfold macd_rule. now rewrite !vget_firstn by lia.
Qed.

End PrefixMACD.

Lemma rules_of_length {F : Type} {DF : Double F} (closes : list F)
  (s : Strategy) (rl : list (bool * bool)) :
  rules_of s closes = Some rl ->
  length rl = (length closes - warmup s)%nat.
Proof.
  destruct s; simpl; intros H.
  - apply mapM_length in H. now rewrite length_seq in H.
  - apply bind_Some in H. destruct H as (macd & Em & H).
    apply bind_Some in H. destruct H as (signal & Es & H).
    apply mapM_length in H. rewrite length_seq in H.
    destruct (macd_line_length _ _ Em) as (_ & Hlm).
    destruct (signal_line_length _ _ Es) as (_ & Hls). lia.
  - apply mapM_length in H. now rewrite length_seq in H.
Qed.

Section PrefixTimeline.

Context {F : Type} {DF : Double F}.
Local Open Scope dbl_scope.

Variable closes : list F.
Variable m : nat.
Hypothesis m_le : (m <= length closes)%nat.

Lemma rules_of_firstn (s : Strategy) (rl rl' : list (bool * bool)) :
  rules_of s closes = Some rl ->
  rules_of s (firstn m closes) = Some rl' ->
  rl' = firstn (m - warmup s) rl.
Proof.
  destruct s; simpl; intros H H'.
  - rewrite length_firstn, Nat.min_l in H' by assumption.
    rewrite (mapM_ext_in _ (rsi_rule closes)) in H'.
    2:{ intros i Hi. apply in_seq in Hi. apply rsi_rule_firstn. lia. }
    apply (mapM_firstn _ _ (m - 15)) in H.
    rewrite firstn_seq_min in H.
    replace (Nat.min (m - 15) (length closes - 15)) with (m - 15)%nat
      in H by lia.
    congruence.
  - apply bind_Some in H. destruct H as (macd & Em & H).
    apply bind_Some in H. destruct H as (signal & Es & H).
    apply bind_Some in H'. destruct H' as (macd' & Em' & H').
    apply bind_Some in H'. destruct H' as (signal' & Es' & H').
    destruct (macd_line_length _ _ Em) as (_ & Hlm).
    destruct (signal_line_length _ _ Es) as (_ & Hls).
    destruct (signal_line_length _ _ Es') as (_ & Hls').
    pose proof (macd_line_firstn closes m macd macd' m_le Em Em') as Hm.
    subst macd'.
    assert (Hk : (m - 26 <= length macd)%nat) by lia.
    pose proof (signal_line_firstn macd (m - 26) signal signal' Hk Es Es')
      as Hsg.
    subst signal'.
    rewrite length_firstn, Nat.min_l in H' by lia.
    rewrite (mapM_ext_in _ (macd_rule macd signal)) in H'.
    2:{ intros i Hi. apply in_seq in Hi. apply macd_rule_firstn. lia. }
    apply (mapM_firstn _ _ (m - 27)) in H.
    rewrite firstn_seq_min in H.
    replace (Nat.min (m - 27) (length signal - 1)) with (m - 26 - 1)%nat
      in H by lia.
    congruence.
  - rewrite length_firstn, Nat.min_l in H' by assumption.
    rewrite (mapM_ext_in _ (bollinger_rule closes)) in H'.
    2:{ intros i Hi. apply in_seq in Hi. apply bollinger_rule_firstn. lia. }
    apply (mapM_firstn _ _ (m - 20)) in H.
    rewrite firstn_seq_min in H.
    replace (Nat.min (m - 20) (length closes - 20)) with (m - 20)%nat
      in H by lia.
    congruence.
Qed.

Lemma scan_firstn (s : Strategy) (theta : F) (st st' : Scan F) :
  scan s closes theta = Some st ->
  scan s (firstn m closes) theta = Some st' ->
  signals st' = firstn m (signals st).
Proof.
  intros E E'.
  destruct (scan_follows_rules _ _ _ _ E) as (rl & Erl & Hs).
  destruct (scan_follows_rules _ _ _ _ E') as (rl' & Erl' & Hs').
  pose proof (rules_of_length closes s rl Erl) as Hlen.
  rewrite (rules_of_firstn s rl rl' Erl Erl') in Hs'.
  rewrite Hs, Hs', length_firstn, (Nat.min_l m) by assumption.
  rewrite firstn_app, firstn_repeat_min, repeat_length, drive_firstn.
  f_equal; [f_equal; lia|]. f_equal.
  destruct (Nat.le_gt_cases (warmup s) (length closes)) as [Hw|Hw].
  - f_equal. lia.
  - assert (rl = []) by (apply length_zero_iff_nil; lia). subst rl.
    now rewrite !firstn_nil.
Qed.

End PrefixTimeline.

(** X17: No look-ahead: running an evaluator on the first [m] candles gives
    the first [m] marks of the timeline of the whole series, so a mark
    never depends on later prices. *)
Theorem timeline_of_prefix {F : Type} {DF : Double F} (s : Strategy)
  (candles : list (Candle F)) (theta : F) (m : nat)
  (r r' : TradeResult F) :
  run s candles theta = Some r ->
  run s (firstn m candles) theta = Some r' ->
  signal_positions r' = firstn m (signal_positions r).
Proof.
  intros E E'. rewrite run_scan in E, E'.
  apply bind_Some in E. destruct E as (st & Es & E).
  apply bind_Some in E'. destruct E' as (st' & Es' & E').
  inversion E; inversion E'; subst. simpl.
  destruct (Nat.le_gt_cases m (length candles)) as [Hm|Hm].
  - unfold closes_of in Es'. rewrite <- firstn_map in Es'.
    apply (scan_firstn (closes_of candles) m) with (s := s) (theta := theta);
      [now rewrite length_closes_of | assumption | assumption].
  - rewrite firstn_all2 in Es' by lia.
    rewrite Es in Es'. inversion Es'; subst.
    symmetry. apply firstn_all2.
    pose proof (scan_Final _ _ _ _ Es) as Hf.
    destruct (Final_summary _ _ _ _ Hf) as (lg & _ & _ & _ & _ & Hl & _).
    rewrite Hl, length_closes_of. lia.
Qed.

(** * Marks and the rules behind them *)

Lemma drive_nth_buy (rules : list (bool * bool)) :
  forall long j, nth j (drive long rules) 0%Z = 1%Z ->
                 exists x, nth_error rules j = Some (true, x).
Proof.
  induction rules as [|[e x] rules IH]; intros long j H.
  - simpl in H. destruct j; discriminate H.
  - simpl in H. destruct long; [destruct x | destruct e];
      destruct j as [|j]; simpl in H |- *; try discriminate H; eauto.
Qed.

Lemma drive_nth_sell (rules : list (bool * bool)) :
  forall long j, nth j (drive long rules) 0%Z = (-1)%Z ->
                 exists e, nth_error rules j = Some (e, true).
Proof.
  induction rules as [|[e x] rules IH]; intros long j H.
  - simpl in H. destruct j; discriminate H.
  - simpl in H. destruct long; [destruct x | destruct e];
      destruct j as [|j]; simpl in H |- *; try discriminate H; eauto.
Qed.

Lemma mapM_nth_error {A B : Type} (f : A -> option B) (l : list A) :
  forall bs j b,
    mapM f l = Some bs -> nth_error bs j = Some b ->
    exists a, nth_error l j = Some a /\ f a = Some b.
Proof.
  induction l as [|a l IH]; intros bs j b H Hj; simpl in H.
  - inversion H; subst. destruct j; discriminate Hj.
  - destruct (f a) as [b0|] eqn:Eb; [|discriminate H].
    destruct (mapM f l) as [bs'|] eqn:Ebs; [|discriminate H].
    inversion H; subst. destruct j as [|j]; simpl in *.
    + inversion Hj; subst. eauto.
    + now apply (IH bs' j b).
Qed.

Lemma nth_error_seq_inv (a len j k : nat) :
  nth_error (seq a len) j = Some k -> k = (a + j)%nat /\ (j < len)%nat.
Proof.
  intros H.
  assert (Hj : (j < len)%nat).
  { rewrite <- (length_seq len a). apply nth_error_Some. congruence. }
  split; [|assumption].
  rewrite (nth_error_nth' _ 0%nat) in H by now rewrite length_seq.
  rewrite seq_nth in H by assumption. now inversion H.
Qed.

Section Justified.

Context {F : Type} {DF : Double F}.
Local Open Scope dbl_scope.

Lemma rules_of_nth (s : Strategy) (closes : list F)
  (rl : list (bool * bool)) (j : nat) (er : bool * bool) :
  rules_of s closes = Some rl ->
  nth_error rl j = Some er ->
  rule_at s closes (warmup s + j) = Some er /\
  (warmup s + j < length closes)%nat.
Proof.
  destruct s; simpl; intros H Hj.
  - destruct (mapM_nth_error _ _ _ _ _ H Hj) as (i & Hi & Hr).
    destruct (nth_error_seq_inv _ _ _ _ Hi) as (-> & Hlt).
    split; [assumption | lia].
  - apply bind_Some in H. destruct H as (macd & Em & H).
    apply bind_Some in H. destruct H as (signal & Es & H).
    destruct (macd_line_length _ _ Em) as (_ & Hlm).
    destruct (signal_line_length _ _ Es) as (_ & Hls).
    destruct (mapM_nth_error _ _ _ _ _ H Hj) as (i & Hi & Hr).
    destruct (nth_error_seq_inv _ _ _ _ Hi) as (-> & Hlt).
    rewrite Em. simpl. rewrite Es. simpl.
    replace (27 + j - 26)%nat with (1 + j)%nat by lia.
    split; [assumption | lia].
  - destruct (mapM_nth_error _ _ _ _ _ H Hj) as (i & Hi & Hr).
    destruct (nth_error_seq_inv _ _ _ _ Hi) as (-> & Hlt).
    split; [assumption | lia].
Qed.

Lemma scan_marks_justified (s : Strategy) (closes : list F) (theta : F)
  (st : Scan F) (i : nat) :
  scan s closes theta = Some st ->
  (nth i (signals st) 0%Z = 1%Z ->
   exists x, rule_at s closes i = Some (true, x)) /\
  (nth i (signals st) 0%Z = (-1)%Z ->
   exists e, rule_at s closes i = Some (e, true)).
Proof.
  intros E.
  destruct (scan_follows_rules _ _ _ _ E) as (rl & Erl & Hs).
  pose proof (rules_of_length closes s rl Erl) as Hlen.
  set (w := Nat.min (warmup s) (length closes)) in *.
  assert (Hsplit : forall v, v <> 0%Z -> nth i (signals st) 0%Z = v ->
             (w <= i)%nat /\ nth (i - w) (drive false rl) 0%Z = v).
  { intros v Hv Hn. rewrite Hs in Hn.
    destruct (Nat.lt_ge_cases i w) as [Hlt|Hge].
    - rewrite app_nth1 in Hn by now rewrite repeat_length.
      rewrite nth_repeat_lt in Hn by assumption. congruence.
    - rewrite app_nth2 in Hn by now rewrite repeat_length.
      rewrite repeat_length in Hn. auto. }
  assert (Hidx : forall j er, nth_error rl j = Some er ->
             (warmup s + j < length closes)%nat ->
             (w <= i)%nat -> j = (i - w)%nat -> (warmup s + j)%nat = i).
  { intros j er _ Hlt Hw ->. unfold w in *. lia. }
  split; intros Hn.
  - destruct (Hsplit 1%Z ltac:(discriminate) Hn) as (Hw & Hd).
    destruct (drive_nth_buy _ _ _ Hd) as (x & Hx).
    destruct (rules_of_nth s closes rl _ _ Erl Hx) as (Hr & Hlt).
    rewrite (Hidx _ _ Hx Hlt Hw eq_refl) in Hr. eauto.
  - destruct (Hsplit (-1)%Z ltac:(discriminate) Hn) as (Hw & Hd).
    destruct (drive_nth_sell _ _ _ Hd) as (e & He).
    destruct (rules_of_nth s closes rl _ _ Erl He) as (Hr & Hlt).
    rewrite (Hidx _ _ He Hlt Hw eq_refl) in Hr. eauto.
Qed.

(** X19: A Buy is marked only at a bar where the entry rule of the strategy
    fires, a Sell only at a bar where its exit rule fires. *)
Theorem marks_are_justified (s : Strategy) (candles : list (Candle F))
  (theta : F) (r : TradeResult F) (i : nat) :
  run s candles theta = Some r ->
  (nth i (signal_positions r) 0%Z = 1%Z ->
   exists x, rule_at s (closes_of candles) i = Some (true, x)) /\
  (nth i (signal_positions r) 0%Z = (-1)%Z ->
   exists e, rule_at s (closes_of candles) i = Some (e, true)).
Proof.
  intros E. rewrite run_scan in E. apply bind_Some in E.
  destruct E as (st & Es & E). inversion E; subst r. simpl.
  now apply scan_marks_justified with (theta := theta).
Qed.

End Justified.

Section MACDLines.

Context {F : Type} {DF : Double F}.
Local Open Scope dbl_scope.

(** X21: The MACD line exists exactly for series of at least 26 bars and has
    one value per bar from bar 26 on; the signal line exists exactly when
    the MACD line is not empty, has one value per MACD value, and starts
    with the first MACD value. *)
Theorem macd_lines_aligned (closes : list F) :
  (macd_line closes = None <-> (length closes < 26)%nat) /\
  (forall macd, macd_line closes = Some macd ->
     length macd = (length closes - 26)%nat /\
     (signal_line macd = None <-> length closes = 26%nat) /\
     (forall signal, signal_line macd = Some signal ->
        length signal = length macd /\ hd_error signal = hd_error macd)).
Proof.
  split.
  - split.
    + intros H.
      destruct (Nat.lt_ge_cases (length closes) 26) as [|Hge]; [assumption|].
      exfalso.
      destruct (vget_in_range closes 11) as (c11 & E11); [lia|].
      destruct (vget_in_range closes 25) as (c25 & E25); [lia|].
      destruct (Nat.eq_dec (length closes) 26) as [H26|H26].
      * unfold macd_line in H. rewrite E11, E25 in H. simpl in H.
        rewrite for_below_empty in H by lia. discriminate H.
      * destruct (ema_defined closes 26 12 c11) as (e12 & E12); [lia|].
        destruct (ema_defined closes 26 26 c25) as (e26 & E26); [lia|].
        destruct (macd_line_spec closes c11 c25 e12 e26) as (macd & Em & _);
          auto; [lia | congruence].
    + intros Hn.
      destruct (macd_line closes) as [macd|] eqn:Em; [|reflexivity].
      destruct (macd_line_length _ _ Em). lia.
  - intros macd Em.
    destruct (macd_line_length _ _ Em) as (Hn & Hlm).
    split; [assumption|]. split.
    + split.
      * intros Hs.
        destruct (Nat.eq_dec (length closes) 26) as [|Hne]; [assumption|].
        destruct (signal_line_spec macd) as (signal & Es & _); [lia|].
        congruence.
      * intros H26.
        destruct (signal_line macd) as [signal|] eqn:Es; [|reflexivity].
        destruct (signal_line_length _ _ Es). lia.
    + intros signal Es.
      destruct (signal_line_length _ _ Es) as (H1 & Hls).
      split; [assumption|].
      destruct (signal_line_spec macd H1) as (signal' & Es' & _ & Hhd).
      congruence.
Qed.

End MACDLines.

(** * Witnesses of the further properties *)


Lemma sma_out_of_range_witness :
  (1 <= 20)%Z /\
  (sma (map float_of_int main_closes) 28 20 = None <->
   (20 - 1 <= 28 /\
    Z.of_nat (length (map float_of_int main_closes)) <= 28)%Z).
Proof. split; [lia|]. apply sma_out_of_range_iff. lia. Defined.

Lemma calculate_rsi_out_of_range_witness :
  (1 <= 14)%Z /\
  (calculate_rsi (map float_of_int main_closes) 28 14 = None <->
   (14 <= 28 /\
    Z.of_nat (length (map float_of_int main_closes)) <= 28)%Z).
Proof. split; [lia|]. apply calculate_rsi_out_of_range_iff. lia. Defined.



Lemma trades_count_sells_witness :
  exists r : TradeResult float,
    run RSI (candles_of_ints rsi_series) (one_percent (F:=float)) = Some r /\
    total_trades r =
      Z.of_nat (count_occ Z.eq_dec (signal_positions r) (-1)%Z) /\
    exists still_open : bool,
      position_after false (signal_positions r) = Some still_open /\
      count_occ Z.eq_dec (signal_positions r) 1%Z =
      (count_occ Z.eq_dec (signal_positions r) (-1)%Z
       + (if still_open then 1 else 0))%nat.
Proof.
  eexists. split; [vm_compute; reflexivity|].
  apply (trades_count_sells RSI (candles_of_ints rsi_series)
           (one_percent (F:=float))).
  vm_compute. reflexivity.
Defined.

Lemma macd_bar_27_unmarked_witness :
  (forall x : R, Rltb x x = false) /\
  (27 <= length (candles_of_ints (F:=R) macd_series))%nat /\
  exists r, run_macd_strategy (candles_of_ints (F:=R) macd_series)
              (one_percent (F:=R)) = Some r /\
            forall j, (j < 28)%nat -> nth j (signal_positions r) 0%Z = 0%Z.
Proof.
  assert (Hirr : forall x : R, Rltb x x = false)
    by (intros x; apply Rltb_ge; lra).
  split; [exact Hirr|]. split; [simpl; lia|].
  apply (macd_bar_27_unmarked (F:=R)); [exact Hirr | simpl; lia].
Defined.


Lemma timeline_follows_rules_witness :
  exists r : TradeResult float,
    run Bollinger (candles_of_ints bollinger_series) (one_percent (F:=float))
      = Some r /\
    exists rl,
      rules_of Bollinger
        (closes_of (candles_of_ints (F:=float) bollinger_series))
        = Some rl /\
      signal_positions r =
      repeat 0%Z (Nat.min (warmup Bollinger)
                          (length (candles_of_ints (F:=float)
                                     bollinger_series)))
      ++ drive false rl.
Proof.
  eexists. split; [vm_compute; reflexivity|].
  apply (timeline_follows_rules Bollinger (candles_of_ints bollinger_series)
           (one_percent (F:=float))).
  vm_compute. reflexivity.
Defined.


Lemma timeline_of_prefix_witness :
  exists r r' : TradeResult float,
    run RSI (candles_of_ints rsi_series) (one_percent (F:=float)) = Some r /\
    run RSI (firstn 17 (candles_of_ints rsi_series)) (one_percent (F:=float))
      = Some r' /\
    signal_positions r' = firstn 17 (signal_positions r).
Proof.
  eexists. eexists. split; [vm_compute; reflexivity|].
  split; [vm_compute; reflexivity|].
  apply (timeline_of_prefix RSI (candles_of_ints rsi_series)
           (one_percent (F:=float)) 17);
    vm_compute; reflexivity.
Defined.

Lemma marks_are_justified_witness :
  exists r : TradeResult float,
    run MACD (candles_of_ints macd_series) (one_percent (F:=float)) = Some r /\
    (nth 29 (signal_positions r) 0%Z = 1%Z ->
     exists x, rule_at MACD
                 (closes_of (candles_of_ints (F:=float) macd_series)) 29
               = Some (true, x)) /\
    (nth 29 (signal_positions r) 0%Z = (-1)%Z ->
     exists e, rule_at MACD
                 (closes_of (candles_of_ints (F:=float) macd_series)) 29
               = Some (e, true)).
Proof.
  eexists. split; [vm_compute; reflexivity|].
  apply (marks_are_justified MACD (candles_of_ints macd_series)
           (one_percent (F:=float))).
  vm_compute. reflexivity.
Defined.


(** * Magnitudes, in every arithmetic that keeps the order laws *)

(** The real numbers keep them. *)
#[export] Instance OrderLaws_R : OrderLaws R.
Proof.
  assert (Hnn : forall x : R, nn x <-> (0 <= x)%R).
  { intros x. unfold nn. simpl. apply Rltb_ge. }
  constructor; simpl.
  - intros z Hz. apply Hnn. now apply IZR_le.
  - apply Rltb_lt. lra.
  - intros g ch Hg Hc. apply Hnn in Hg. apply Rltb_lt in Hc.
    apply Hnn. lra.
  - intros l ch Hl Hc. apply Hnn in Hl. apply Rltb_ge in Hc.
    apply Hnn. lra.
  - intros g l Hg Hl Hz. apply Hnn in Hg, Hl. apply Hnn.
    assert (l <> 0)%R.
    { intros E. apply Reqb_eq in E. congruence. }
    apply Rmult_le_pos; [assumption|].
    apply Rlt_le, Rinv_0_lt_compat. lra.
  - intros x y Hx Hy. apply Hnn in Hx, Hy. apply Hnn.
    now apply Rmult_le_pos.
  - intros x. apply Hnn. apply sqrt_pos.
  - intros x y Hy. apply Hnn in Hy. apply Rltb_ge. lra.
  - intros x y Hy. apply Hnn in Hy. apply Rltb_ge. lra.
  - intros a t Ha Ht. apply Rltb_lt in Ha. apply Rltb_ge in Ht.
    assert (H0 : (0 < / t)%R) by (apply Rinv_0_lt_compat; lra).
    assert (H1 : (/ t <= / 1)%R) by (apply Rinv_le_contravar; lra).
    rewrite Rinv_1 in H1.
    split; [apply Hnn | apply Rltb_ge]; unfold Rdiv; nra.
  - intros a q Hq Ha. apply Hnn in Hq. apply Rltb_ge in Ha.
    apply Hnn. lra.
  - intros x m y Hx Hy. apply Rltb_lt in Hx. apply Hnn in Hy.
    apply Rltb_lt. lra.
  - intros x m y Hx Hy. apply Rltb_lt in Hx. apply Hnn in Hy.
    apply Rltb_lt. lra.
Qed.

Section OrderedArithmetic.

Context {F : Type} {DF : Double F} {OL : OrderLaws F}.
Local Open Scope dbl_scope.


(** ** RSI *)







End OrderedArithmetic.

(** ** Bollinger bands *)

Section Bands.

Context {F : Type} {DF : Double F}.
Local Open Scope dbl_scope.

(** [sma] is the mean of the trailing window, operation for operation. *)
Lemma sma_window (closes : list F) (i period : nat) :
  (1 <= period <= i + 1)%nat -> (i < length closes)%nat ->
  sma closes (Z.of_nat i) (Z.of_nat period) =
  Some (window_mean (window closes i period)).
Proof.
  intros Hp Hi. unfold sma.
  destruct (Z.ltb_spec (Z.of_nat i) (Z.of_nat period - 1)); [lia|].
  pose proof (for_upto_window_fold fadd closes i period (of_int 0)) as E.
  rewrite E by lia. simpl bind.
  unfold window_mean, window_sum. now rewrite window_length by lia.
Qed.

(** The four values of lines 133-140 at a bar that has a full window. *)
Lemma bollinger_bands_window (closes : list F) (i : nat) :
  (20 <= i < length closes)%nat ->
  bollinger_bands closes i 20 =
  Some (window_mean (window closes i 20),
        window_stddev (window closes i 20),
        window_mean (window closes i 20)
        + of_int 2 * window_stddev (window closes i 20),
        window_mean (window closes i 20)
        - of_int 2 * window_stddev (window closes i 20)).
Proof.
  intros Hi. unfold bollinger_bands.
  pose proof (sma_window closes i 20) as Es.
  change (Z.of_nat 20) with 20%Z in Es.
  rewrite Es by lia. simpl bind.
  set (ma := window_mean (window closes i 20)).
  pose proof (for_upto_window_fold
                (fun acc c => acc + (c - ma) * (c - ma)) closes i 20
                (of_int 0)) as E.
  cbv beta in E. change (Z.of_nat 20) with 20%Z in E.
  rewrite E by lia. simpl bind.
  unfold window_stddev. fold ma. now rewrite window_length by lia.
Qed.

Context {OL : OrderLaws F}.

Lemma two_deviations_nn (w : list F) : nn (of_int 2 * window_stddev w).
Proof.
  apply mul_nn; [apply of_int_nn; lia|]. unfold window_stddev.
  apply sqrt_nn.
Qed.


(** The entry rule of the Bollinger evaluator fires only below the
    20-bar average, its exit rule only above it. *)
Lemma bollinger_rule_across_mean (closes : list F) (i : nat)
  (e x : bool) :
  (20 <= i < length closes)%nat ->
  bollinger_rule closes i = Some (e, x) ->
  exists ma c,
    sma closes (Z.of_nat i) 20 = Some ma /\
    vget closes (Z.of_nat i) = Some c /\
    (e = true -> (c <? ma) = true) /\
    (x = true -> (ma <? c) = true).
Proof.
  intros Hi E. unfold bollinger_rule in E.
  rewrite bollinger_bands_window in E by assumption. simpl in E.
  apply bind_Some in E. destruct E as (c & Ec & E).
  inversion E; subst e x. clear E.
  exists (window_mean (window closes i 20)), c.
  split; [apply (sma_window closes i 20); lia|].
  split; [assumption|]. split; intros H.
  - eapply lt_sub_nn; [exact H | apply two_deviations_nn].
  - eapply add_nn_lt; [exact H | apply two_deviations_nn].
Qed.

End Bands.

(** * The result record against the table of rules *)

Section Results.

Context {F : Type} {DF : Double F}.
Local Open Scope dbl_scope.

Lemma scan_mark_in_range (s : Strategy) (closes : list F) (theta : F)
  (st : Scan F) (i : nat) :
  scan s closes theta = Some st ->
  nth i (signals st) 0%Z <> 0%Z ->
  (warmup s <= i < length closes)%nat.
Proof.
  intros E Hn. pose proof (scan_Final _ _ _ _ E) as Hf.
  destruct (Final_summary _ _ _ _ Hf) as (lg & _ & _ & _ & _ & Hl & _).
  split.
  - destruct (Nat.lt_ge_cases i (warmup s)) as [Hlt|]; [|assumption].
    exfalso. apply Hn. now apply (Inv_quiet _ _ _ _ _ Hf).
  - destruct (Nat.lt_ge_cases i (length closes)); [assumption|].
    exfalso. apply Hn. apply nth_overflow. lia.
Qed.

(** The first bar after the warm-up is marked Buy exactly when the entry
    rule fires there: the scan reaches it with no position open. *)
Lemma first_scanned_bar (s : Strategy) (closes : list F)
  (rl : list (bool * bool)) (sigs : list Z) :
  rules_of s closes = Some rl ->
  sigs = repeat 0%Z (Nat.min (warmup s) (length closes)) ++ drive false rl ->
  (warmup s < length closes)%nat ->
  nth (warmup s) sigs 0%Z = 1%Z <->
  exists x, rule_at s closes (warmup s) = Some (true, x).
Proof.
  intros Erl -> Hlt.
  pose proof (rules_of_length closes s rl Erl) as Hlen.
  rewrite Nat.min_l by lia.
  rewrite app_nth2 by (rewrite repeat_length; lia).
  rewrite repeat_length, Nat.sub_diag.
  destruct rl as [|[e x] rest]; [simpl in Hlen; lia|].
  destruct (rules_of_nth s closes _ 0 (e, x) Erl eq_refl) as (Hr & _).
  rewrite Nat.add_0_r in Hr. rewrite Hr.
  destruct e; simpl; split; intros H; eauto; try discriminate.
  destruct H as (x0 & H). discriminate.
Qed.

(** C7: the record an evaluator returns.  Its timeline is the one the
    table of rules drives from the warm-up offset on; [total_trades] is
    the number of completed trades of that timeline; with no completed
    trade success_rate = 0 and avg_return = 0, chosen by the guard on
    [trades] before any division; otherwise success_rate = (count of
    returns > theta) / total_trades * 100 and avg_return = (sum of
    returns / total_trades) * 100, over the returns of those trades. *)
Theorem result_aggregation (s : Strategy) (candles : list (Candle F))
  (theta : F) :
  long_enough s (length candles) ->
  exists r rl rets,
    run s candles theta = Some r /\
    rules_of s (closes_of candles) = Some rl /\
    signal_positions r =
      repeat 0%Z (Nat.min (warmup s) (length candles)) ++ drive false rl /\
    trade_returns (closes_of candles) (signal_positions r) = Some rets /\
    total_trades r = Z.of_nat (length rets) /\
    (total_trades r = 0%Z ->
       success_rate r = of_int 0 /\ avg_return r = of_int 0) /\
    (total_trades r <> 0%Z ->
       success_rate r =
         of_int (count_above theta rets) / of_int (total_trades r)
         * of_int 100 /\
       avg_return r =
         (sum_returns rets / of_int (total_trades r)) * of_int 100).
Proof.
  intros H.
  destruct (run_defined s candles theta H) as (st & Es & E & Hf).
  destruct (Final_summary _ _ _ _ Hf) as (lg & Hr & _ & _ & Hs & _ & _).
  destruct (scan_follows_rules _ _ _ _ Es) as (rl & Erl & Hsig).
  exists (summary st), rl, (returns lg). split; [assumption|].
  split; [assumption|].
  split; [simpl; now rewrite Hsig, length_closes_of|].
  split; [unfold trade_returns; simpl; now rewrite Hr|].
  rewrite Hs. simpl. split; [reflexivity|]. split; intros Ht.
  - rewrite Ht. simpl. auto.
  - destruct (Z.eqb_spec (Z.of_nat (length (returns lg))) 0);
      [contradiction|auto].
Qed.

(** C8: each evaluator begins scanning at its warm-up offset: RSI at bar
    15, MACD at bar 27, Bollinger at bar 20.  The timeline is all zeros
    below the offset; from the offset on it is the timeline of the
    position machine started flat and driven by the rules of bar
    [offset], [offset + 1], ... up to the last bar; so the bar at the
    offset is marked Buy exactly when the entry rule fires there.  The
    MACD line starts from EMA12 seeded with [closes[11]] and EMA26 seeded
    with [closes[25]], and the signal line starts with the first MACD
    value. *)
Theorem warmup_offsets (s : Strategy) (candles : list (Candle F))
  (theta : F) :
  long_enough s (length candles) ->
  (warmup RSI = 15 /\ warmup MACD = 27 /\ warmup Bollinger = 20)%nat /\
  (exists r rl,
     run s candles theta = Some r /\
     rules_of s (closes_of candles) = Some rl /\
     length rl = (length candles - warmup s)%nat /\
     (forall j er, nth_error rl j = Some er ->
        rule_at s (closes_of candles) (warmup s + j) = Some er) /\
     signal_positions r =
       repeat 0%Z (Nat.min (warmup s) (length candles)) ++ drive false rl /\
     (forall j, (j < warmup s)%nat ->
        nth j (signal_positions r) 0%Z = 0%Z) /\
     ((warmup s < length candles)%nat ->
      nth (warmup s) (signal_positions r) 0%Z = 1%Z <->
      exists x, rule_at s (closes_of candles) (warmup s) = Some (true, x))) /\
  (s = MACD ->
   exists c11 c25 e12 e26 macd signal,
     vget (closes_of candles) 11 = Some c11 /\
     vget (closes_of candles) 25 = Some c25 /\
     ema (closes_of candles) 26 12 c11 = Some e12 /\
     ema (closes_of candles) 26 26 c25 = Some e26 /\
     macd_line (closes_of candles) = Some macd /\
     signal_line macd = Some signal /\
     hd_error macd = Some (e12 - e26) /\
     hd_error signal = hd_error macd).
Proof.
  intros H. split; [repeat split|]. split.
  - destruct (run_defined s candles theta H) as (st & Es & E & Hf).
    destruct (scan_follows_rules _ _ _ _ Es) as (rl & Erl & Hsig).
    exists (summary st), rl. split; [assumption|]. split; [assumption|].
    split; [rewrite <- length_closes_of; now apply rules_of_length|].
    split; [intros j er Hj; now apply (rules_of_nth s _ rl)|].
    simpl. split; [now rewrite Hsig, length_closes_of|].
    split; [apply (Inv_quiet _ _ _ _ _ Hf)|].
    rewrite <- length_closes_of.
    now apply (first_scanned_bar s _ rl).
  - intros ->. simpl in H. rewrite <- length_closes_of in H.
    set (closes := closes_of candles) in *.
    destruct (vget_in_range closes 11) as (c11 & E11); [lia|].
    destruct (vget_in_range closes 25) as (c25 & E25); [lia|].
    destruct (ema_defined closes 26 12 c11) as (e12 & E12); [lia|].
    destruct (ema_defined closes 26 26 c25) as (e26 & E26); [lia|].
    destruct (macd_line_spec closes c11 c25 e12 e26 H E11 E25 E12 E26)
      as (macd & Em & Hlm & Hhd).
    destruct (signal_line_spec macd) as (signal & Es & _ & Hhs); [lia|].
    exists c11, c25, e12, e26, macd, signal. repeat split; auto.
Qed.

Context {OL : OrderLaws F}.

(** X20: the Bollinger evaluator buys only at a bar whose close compares
    below the 20-bar [sma] of that bar, and sells only at a bar whose
    close compares above it. *)
Theorem bollinger_marks_across_sma (candles : list (Candle F)) (theta : F)
  (r : TradeResult F) (i : nat) :
  run Bollinger candles theta = Some r ->
  (nth i (signal_positions r) 0%Z = 1%Z ->
   exists ma c, sma (closes_of candles) (Z.of_nat i) 20 = Some ma /\
                vget (closes_of candles) (Z.of_nat i) = Some c /\
                (c <? ma) = true) /\
  (nth i (signal_positions r) 0%Z = (-1)%Z ->
   exists ma c, sma (closes_of candles) (Z.of_nat i) 20 = Some ma /\
                vget (closes_of candles) (Z.of_nat i) = Some c /\
                (ma <? c) = true).
Proof.
  intros E. rewrite run_scan in E. apply bind_Some in E.
  destruct E as (st & Es & E). inversion E; subst r. clear E. simpl.
  destruct (scan_marks_justified Bollinger _ theta st i Es) as (Hb & Hs).
  split; intros Hn.
  - assert (Hi : (20 <= i < length (closes_of candles))%nat).
    { apply (scan_mark_in_range Bollinger _ theta st i Es). rewrite Hn.
      discriminate. }
    destruct (Hb Hn) as (x & Hr). simpl in Hr.
    destruct (bollinger_rule_across_mean _ _ _ _ Hi Hr)
      as (ma & c & Em & Ec & He & _).
    exists ma, c. auto.
  - assert (Hi : (20 <= i < length (closes_of candles))%nat).
    { apply (scan_mark_in_range Bollinger _ theta st i Es). rewrite Hn.
      discriminate. }
    destruct (Hs Hn) as (e & Hr). simpl in Hr.
    destruct (bollinger_rule_across_mean _ _ _ _ Hi Hr)
      as (ma & c & Em & Ec & _ & Hx).
    exists ma, c. auto.
Qed.

End Results.

(** * Runs in binary64 *)

Section Binary64Runs.

(** The order laws hold on the corner values of binary64. *)
Example binary64_order_laws : order_laws_on binary64_grid = true.
Proof. vm_compute. reflexivity. Qed.

(** On [rounding_series] the one completed trade has return -1 and the
    average return is -100 itself. *)
Example rounding_series_average :
  forallb is_price rounding_series = true /\
  exists r,
    run Bollinger (map (fun c => {| close := c |}) rounding_series)
      (one_percent (F:=float)) = Some r /\
    total_trades r = 1%Z /\ avg_return r = (-100)%float.
Proof.
  split; [vm_compute; reflexivity|].
  eexists. split; [vm_compute; reflexivity|]. split; reflexivity.
Qed.

End Binary64Runs.





Lemma result_aggregation_witness :
  long_enough MACD (length (candles_of_ints (F:=float) macd_series)) /\
  exists (r : TradeResult float) rets,
    run MACD (candles_of_ints macd_series) (one_percent (F:=float))
      = Some r /\
    trade_returns (closes_of (candles_of_ints macd_series))
      (signal_positions r) = Some rets /\
    total_trades r = Z.of_nat (length rets) /\
    (total_trades r <> 0%Z ->
     avg_return r =
       fmul (fdiv (sum_returns rets) (of_int (total_trades r)))
            (of_int 100)).
Proof.
  split; [simpl; lia|].
  destruct (result_aggregation MACD (candles_of_ints (F:=float) macd_series)
              (one_percent (F:=float)))
    as (r & rl & rets & E & _ & _ & Hr & Ht & _ & Hn); [simpl; lia|].
  exists r, rets. split; [exact E|]. split; [exact Hr|].
  split; [exact Ht|]. intros H. now destruct (Hn H).
Defined.

Lemma warmup_offsets_witness :
  long_enough RSI (length (candles_of_ints (F:=float) rsi_series)) /\
  exists (r : TradeResult float) rl,
    run RSI (candles_of_ints rsi_series) (one_percent (F:=float))
      = Some r /\
    rules_of RSI (closes_of (candles_of_ints (F:=float) rsi_series))
      = Some rl /\
    signal_positions r = repeat 0%Z 15 ++ drive false rl.
Proof.
  split; [exact I|].
  destruct (warmup_offsets RSI (candles_of_ints (F:=float) rsi_series)
              (one_percent (F:=float)) I)
    as (_ & (r & rl & E & Erl & _ & _ & Hs & _) & _).
  exists r, rl. split; [exact E|]. split; [exact Erl|]. exact Hs.
Defined.


Lemma bollinger_marks_across_sma_witness :
  exists r : TradeResult R,
    run Bollinger (candles_of_ints bollinger_series) (one_percent (F:=R))
      = Some r /\
    (nth 20 (signal_positions r) 0%Z = 1%Z ->
     exists ma c : R,
       sma (closes_of (candles_of_ints bollinger_series)) 20 20 = Some ma /\
       vget (closes_of (candles_of_ints bollinger_series)) 20 = Some c /\
       Rltb c ma = true).
Proof.
  destruct (run_defined Bollinger (candles_of_ints (F:=R) bollinger_series)
              (one_percent (F:=R)) I) as (st & _ & E & _).
  exists (summary st). split; [exact E|].
  exact (proj1 (bollinger_marks_across_sma
                  (candles_of_ints (F:=R) bollinger_series)
                  (one_percent (F:=R)) (summary st) 20 E)).
Defined.
